(** * Ultrahand-Overlay: the command interpreter of utils.hpp

    A shallow embedding of [isDangerousCombination] and
    [interpretAndExecuteCommand] (src/source/utils.hpp), with the properties
    of the path guard and of the dispatcher proved on it.

    Conventions.  A [std::string] is a [string] (a list of 8-bit characters);
    [size_t] positions are [nat], and [std::string::npos] is [None] in the
    result of [find].  Every helper that lives in another header of the
    project (path_funcs.hpp, hex_funcs.hpp, json_funcs.hpp, ...) is a field
    of the record [Collaborators]; a call that acts on the console or on the
    SD card is an [Event] of the trace the interpreter produces. *)

From Stdlib Require Import List Bool Arith Lia ZArith.
From Stdlib Require Import Ascii String.
Import ListNotations.

Open Scope list_scope.
Open Scope string_scope.

(* ------------------------------------------------------------------ *)
(** ** std::string operations used by the source *)

Module StdString.

(** [s.find(t)] with the default start position 0: the first position at
    which [t] occurs in [s], [None] for [npos]. *)
Definition find (s t : string) : option nat := index 0 t s.

(** [s.find(c)] for a single character. *)
Definition find_char (s : string) (c : ascii) : option nat :=
  index 0 (String c EmptyString) s.

(** [r == n] on the result of a [find]. *)
Definition pos_is (r : option nat) (n : nat) : bool :=
  match r with
  | Some k => Nat.eqb k n
  | None => false
  end.

(** [r != std::string::npos]. *)
Definition found (r : option nat) : bool :=
  match r with
  | Some _ => true
  | None => false
  end.

(** [s.empty()]. *)
Definition empty (s : string) : bool :=
  match s with
  | EmptyString => true
  | String _ _ => false
  end.

(** [s.substr(pos)]: the rest of [s] from [pos] on.  The source only calls
    it with [pos <= s.size()], where no exception is raised. *)
Definition substr_from (s : string) (pos : nat) : string :=
  substring pos (String.length s - pos) s.

(** [s.substr(pos, len)]: at most [len] characters from [pos] on. *)
Definition substr (s : string) (pos len : nat) : string :=
  substring pos len s.

(** [std::string(n, '\0')]. *)
Fixpoint nulls (n : nat) : string :=
  match n with
  | O => EmptyString
  | S k => String zero (nulls k)
  end.

(** [s.c_str()] read back as a C string: the characters before the first
    null character. *)
Fixpoint c_str (s : string) : string :=
  match s with
  | EmptyString => EmptyString
  | String c r => if Ascii.eqb c zero then EmptyString else String c (c_str r)
  end.

(** "t occurs in s": the specification side of [find]. *)
Definition Occurs (t s : string) : Prop :=
  exists a b, s = a ++ t ++ b.

End StdString.
Import StdString.

(* ------------------------------------------------------------------ *)
(** ** The protected folders and the path guard (utils.hpp, lines 171-309) *)

Definition protectedFolders : list string :=
  [ "sdmc:/Nintendo/";
    "sdmc:/emuMMC/";
    "sdmc:/atmosphere/";
    "sdmc:/bootloader/";
    "sdmc:/switch/";
    "sdmc:/config/";
    "sdmc:/" ].

Definition ultraProtectedFolders : list string :=
  [ "sdmc:/Nintendo/";
    "sdmc:/emuMMC/" ].

Definition dangerousCombinationPatterns : list string := [ "*"; "*/" ].

Definition dangerousPatterns : list string := [ ".."; "~" ].

(** The loop [for (char c : relativePath)] of lines 227-236 (and 268-277):
    [pathSegments] and [pathSegment] are the two accumulators. *)
Fixpoint splitLoop (relativePath : string) (pathSegments : list string)
    (pathSegment : string) : list string * string :=
  match relativePath with
  | EmptyString => (pathSegments, pathSegment)
  | String c rest =>
      if Ascii.eqb c "/"%char then
        if negb (empty pathSegment)
        then splitLoop rest (pathSegments ++ [pathSegment])%list EmptyString
        else splitLoop rest pathSegments pathSegment
      else splitLoop rest pathSegments (pathSegment ++ String c EmptyString)
  end.

(** The loop followed by the last [push_back] (lines 238-240). *)
Definition splitSegments (relativePath : string) : list string :=
  let '(pathSegments, pathSegment) := splitLoop relativePath [] EmptyString in
  if negb (empty pathSegment) then (pathSegments ++ [pathSegment])%list
  else pathSegments.

(** One turn of the loop over [protectedFolders] (lines 214-258): [true]
    when the turn executes a [return true]. *)
Definition protectedFolderCheck (patternPath protectedFolder : string) : bool :=
  if String.eqb patternPath protectedFolder then true
  else if (if pos_is (find patternPath protectedFolder) 0 then
             let relativePath :=
               substr_from patternPath (String.length protectedFolder) in
             existsb (fun pathSegment =>
                        existsb (fun dangerousPattern =>
                                   found (find pathSegment dangerousPattern))
                                dangerousPatterns)
                     (splitSegments relativePath)
           else false) then true
  else existsb (fun dangerousPattern =>
                  String.eqb patternPath (protectedFolder ++ dangerousPattern))
               dangerousCombinationPatterns.

(** Lines 261-291: the segments of a path on sdmc:/ compared with the
    dangerous patterns. *)
Definition sdmcSegmentCheck (patternPath : string) : bool :=
  if pos_is (find patternPath "sdmc:/") 0 then
    let relativePath := substr_from patternPath 6 in
    existsb (fun pathSegment =>
               existsb (fun dangerousPattern =>
                          String.eqb pathSegment dangerousPattern)
                       dangerousPatterns)
            (splitSegments relativePath)
  else false.

(** Lines 294-299: a wildcard in the part up to and including the first ":/". *)
Definition rootWildcardCheck (patternPath : string) : bool :=
  match find patternPath ":/" with
  | Some k =>
      let rootPath := substr patternPath 0 (k + 2) in
      found (find_char rootPath "*"%char)
  | None => false
  end.

Definition isDangerousCombination (patternPath : string) : bool :=
  if existsb (fun ultraProtectedFolder =>
                pos_is (find patternPath ultraProtectedFolder) 0)
             ultraProtectedFolders then true
  else if existsb (protectedFolderCheck patternPath) protectedFolders then true
  else if sdmcSegmentCheck patternPath then true
  else if rootWildcardCheck patternPath then true
  else existsb (fun pattern => found (find patternPath pattern))
               dangerousPatterns.

(* ------------------------------------------------------------------ *)
(** ** The interpreter's variables, collaborators and effects *)

(** Shutdown modes (utils.hpp, lines 35-36). *)
Definition SpsmShutdownMode_Normal : Z := 0.
Definition SpsmShutdownMode_Reboot : Z := 1.

(** The strings declared before the loop (line 320).  They are all empty
    when [interpretAndExecuteCommand] starts and live across the turns of
    the loop. *)
Record Vars : Type := MkVars {
  commandName : string;
  jsonPath : string;
  sourcePath : string;
  destinationPath : string;
  desiredSection : string;
  desiredKey : string;
  desiredNewKey : string;
  desiredValue : string;
  offset : string;
  customPattern : string;
  hexDataToReplace : string;
  hexDataReplacement : string;
  fileUrl : string;
  occurrence : string
}.

Definition initialVars : Vars :=
  MkVars "" "" "" "" "" "" "" "" "" "" "" "" "" "".

Definition set_commandName (v : string) (st : Vars) : Vars :=
  let '(MkVars _ b c d e f g h i j k l m n) := st in MkVars v b c d e f g h i j k l m n.
Definition set_jsonPath (v : string) (st : Vars) : Vars :=
  let '(MkVars a _ c d e f g h i j k l m n) := st in MkVars a v c d e f g h i j k l m n.
Definition set_sourcePath (v : string) (st : Vars) : Vars :=
  let '(MkVars a b _ d e f g h i j k l m n) := st in MkVars a b v d e f g h i j k l m n.
Definition set_destinationPath (v : string) (st : Vars) : Vars :=
  let '(MkVars a b c _ e f g h i j k l m n) := st in MkVars a b c v e f g h i j k l m n.
Definition set_desiredSection (v : string) (st : Vars) : Vars :=
  let '(MkVars a b c d _ f g h i j k l m n) := st in MkVars a b c d v f g h i j k l m n.
Definition set_desiredKey (v : string) (st : Vars) : Vars :=
  let '(MkVars a b c d e _ g h i j k l m n) := st in MkVars a b c d e v g h i j k l m n.
Definition set_desiredNewKey (v : string) (st : Vars) : Vars :=
  let '(MkVars a b c d e f _ h i j k l m n) := st in MkVars a b c d e f v h i j k l m n.
Definition set_desiredValue (v : string) (st : Vars) : Vars :=
  let '(MkVars a b c d e f g _ i j k l m n) := st in MkVars a b c d e f g v i j k l m n.
Definition set_offset (v : string) (st : Vars) : Vars :=
  let '(MkVars a b c d e f g h _ j k l m n) := st in MkVars a b c d e f g h v j k l m n.
Definition set_customPattern (v : string) (st : Vars) : Vars :=
  let '(MkVars a b c d e f g h i _ k l m n) := st in MkVars a b c d e f g h i v k l m n.
Definition set_hexDataToReplace (v : string) (st : Vars) : Vars :=
  let '(MkVars a b c d e f g h i j _ l m n) := st in MkVars a b c d e f g h i j v l m n.
Definition set_hexDataReplacement (v : string) (st : Vars) : Vars :=
  let '(MkVars a b c d e f g h i j k _ m n) := st in MkVars a b c d e f g h i j k v m n.
Definition set_fileUrl (v : string) (st : Vars) : Vars :=
  let '(MkVars a b c d e f g h i j k l _ n) := st in MkVars a b c d e f g h i j k l v n.
Definition set_occurrence (v : string) (st : Vars) : Vars :=
  let '(MkVars a b c d e f g h i j k l m _) := st in MkVars a b c d e f g h i j k l m v.

(** The calls the interpreter makes for their effect, with the arguments
    they receive.  [mirrorCopyFiles], [mirrorDeleteFiles] and
    [hexEditFindReplace] are called with or without their last argument. *)
Inductive Event : Type :=
| CreateDirectory (path : string)
| CopyFileOrDirectoryByPattern (src dst : string)
| CopyFileOrDirectory (src dst : string)
| MirrorCopyFiles (src : string) (dst : option string)
| DeleteFileOrDirectoryByPattern (path : string)
| DeleteFileOrDirectory (path : string)
| MirrorDeleteFiles (src : string) (dst : option string)
| MoveFilesOrDirectoriesByPattern (src dst : string)
| MoveFileOrDirectory (src dst : string)
| SetIniFileValue (path section key value : string)
| SetIniFileKey (path section key newKey : string)
| HexEditByOffset (path offset hexData : string)
| HexEditByCustomOffset (path pattern offset hexData : string)
| HexEditFindReplace (path hexFind hexReplace : string) (occ : option string)
| LogMessage (message : string)
| DownloadFile (url dst : string)
| UnzipFile (src dst : string)
| SplExit
| FsdevUnmountAll
| SpsmShutdown (mode : Z).

(** What utils.hpp takes from the other headers and from libnx.  [World] is
    the state those calls act on (the SD card, the log, the console);
    [exec] is the effect of one call, which returns to the interpreter like
    any C++ call statement.  The string helpers are functions of their
    arguments; the placeholder resolver also reads the document stored at
    [jsonPath] in the world. *)
Record Collaborators : Type := MkCollaborators {
  World : Type;
  exec : Event -> World -> World;
  preprocessPath : string -> string;
  preprocessUrl : string -> string;
  removeQuotes : string -> string;
  asciiToHex : string -> string;
  decimalToHex : string -> string;
  decimalToReversedHex : string -> string;
  replaceJsonSourcePlaceholder : World -> string -> string -> string
}.

(* ------------------------------------------------------------------ *)
(** ** interpretAndExecuteCommand (utils.hpp, lines 319-601) *)

(** The loop [for (size_t i = 4; i < command.size(); ++i)] of lines 453-458
    (and 470-475): [turns] is the number of turns left, [command.size() - i];
    [acc] is the variable the loop appends to. *)
Fixpoint appendTokens (command : list string) (i turns : nat) (acc : string)
    : string :=
  match turns with
  | O => acc
  | S turns' =>
      let acc := acc ++ nth i command "" in
      let acc := if Nat.ltb i (List.length command - 1) then acc ++ " " else acc in
      appendTokens command (S i) turns' acc
  end.

(** Lines 524-531: "Fix miss-matched string sizes". *)
Definition fixMismatchedSizes (hexDataToReplace hexDataReplacement : string)
    : string * string :=
  if Nat.ltb (String.length hexDataReplacement) (String.length hexDataToReplace) then
    (hexDataToReplace,
     hexDataReplacement ++
       nulls (String.length hexDataToReplace - String.length hexDataReplacement))
  else if Nat.ltb (String.length hexDataToReplace) (String.length hexDataReplacement) then
    (hexDataToReplace ++
       nulls (String.length hexDataReplacement - String.length hexDataToReplace),
     hexDataReplacement)
  else (hexDataToReplace, hexDataReplacement).

Section Interpreter.

Variable C : Collaborators.

(** Lines 336-355: [command] is the command with its placeholders replaced
    when [jsonPath] is not empty, the command itself otherwise. *)
Definition resolveCommand (w : World C) (jsonPath : string)
    (unmodifiedCommand : list string) : list string :=
  if negb (empty jsonPath) then
    map (fun commandArg =>
           if found (find commandArg "{json_data(")
           then replaceJsonSourcePlaceholder C w commandArg jsonPath
           else commandArg)
        unmodifiedCommand
  else unmodifiedCommand.

(** Lines 507-512, shared by the four find-and-replace verbs. *)
Definition findReplace (st : Vars) (command : list string) : Vars * list Event :=
  if Nat.leb 5 (List.length command) then
    let st := set_occurrence (removeQuotes C (nth 4 command "")) st in
    (st, [HexEditFindReplace (sourcePath st) (hexDataToReplace st)
            (hexDataReplacement st) (Some (occurrence st))])
  else
    (st, [HexEditFindReplace (sourcePath st) (hexDataToReplace st)
            (hexDataReplacement st) None]).

(** Lines 359-599: the chain of comparisons of [commandName], on the
    variables [st] (where [commandName] is already assigned) and the
    resolved [command].  [command[i]] is only read under a test of
    [command.size()], so the default of [nth] is never returned. *)
Definition dispatch (st : Vars) (command : list string) : Vars * list Event :=
  let size := List.length command in
  let tok := fun i => nth i command "" in
  let name := commandName st in
  if String.eqb name "json_data" then
    if Nat.leb 2 size then (set_jsonPath (preprocessPath C (tok 1)) st, [])
    else (st, [])
  else if String.eqb name "make" || String.eqb name "mkdir" then
    if Nat.leb 2 size then
      let st := set_sourcePath (preprocessPath C (tok 1)) st in
      (st, [CreateDirectory (sourcePath st)])
    else (st, [])
  else if String.eqb name "copy" || String.eqb name "cp" then
    if Nat.leb 3 size then
      let st := set_sourcePath (preprocessPath C (tok 1)) st in
      let st := set_destinationPath (preprocessPath C (tok 2)) st in
      if found (find_char (sourcePath st) "*"%char)
      then (st, [CopyFileOrDirectoryByPattern (sourcePath st) (destinationPath st)])
      else (st, [CopyFileOrDirectory (sourcePath st) (destinationPath st)])
    else (st, [])
  else if String.eqb name "mirror_copy" || String.eqb name "mirror_cp" then
    if Nat.leb 2 size then
      let st := set_sourcePath (preprocessPath C (tok 1)) st in
      if Nat.leb 3 size then
        let st := set_destinationPath (preprocessPath C (tok 2)) st in
        (st, [MirrorCopyFiles (sourcePath st) (Some (destinationPath st))])
      else (st, [MirrorCopyFiles (sourcePath st) None])
    else (st, [])
  else if String.eqb name "delete" || String.eqb name "del" then
    if Nat.leb 2 size then
      let st := set_sourcePath (preprocessPath C (tok 1)) st in
      if negb (isDangerousCombination (sourcePath st)) then
        if found (find_char (sourcePath st) "*"%char)
        then (st, [DeleteFileOrDirectoryByPattern (sourcePath st)])
        else (st, [DeleteFileOrDirectory (sourcePath st)])
      else (st, [])
    else (st, [])
  else if String.eqb name "mirror_delete" || String.eqb name "mirror_del" then
    if Nat.leb 2 size then
      let st := set_sourcePath (preprocessPath C (tok 1)) st in
      if Nat.leb 3 size then
        let st := set_destinationPath (preprocessPath C (tok 2)) st in
        (st, [MirrorDeleteFiles (sourcePath st) (Some (destinationPath st))])
      else (st, [MirrorDeleteFiles (sourcePath st) None])
    else (st, [])
  else if String.eqb name "rename" || String.eqb name "move" || String.eqb name "mv" then
    if Nat.leb 3 size then
      let st := set_sourcePath (preprocessPath C (tok 1)) st in
      let st := set_destinationPath (preprocessPath C (tok 2)) st in
      if negb (isDangerousCombination (sourcePath st)) then
        if found (find_char (sourcePath st) "*"%char)
        then (st, [MoveFilesOrDirectoriesByPattern (sourcePath st) (destinationPath st)])
        else (st, [MoveFileOrDirectory (sourcePath st) (destinationPath st)])
      else (st, [])
    else (st, [])
  else if String.eqb name "set-ini-val" || String.eqb name "set-ini-value" then
    if Nat.leb 5 size then
      let st := set_sourcePath (preprocessPath C (tok 1)) st in
      let st := set_desiredSection (removeQuotes C (tok 2)) st in
      let st := set_desiredKey (removeQuotes C (tok 3)) st in
      let st := set_desiredValue (appendTokens command 4 (size - 4) (desiredValue st)) st in
      (st, [SetIniFileValue (c_str (sourcePath st)) (c_str (desiredSection st))
              (c_str (desiredKey st)) (c_str (desiredValue st))])
    else (st, [])
  else if String.eqb name "set-ini-key" then
    if Nat.leb 5 size then
      let st := set_sourcePath (preprocessPath C (tok 1)) st in
      let st := set_desiredSection (removeQuotes C (tok 2)) st in
      let st := set_desiredKey (removeQuotes C (tok 3)) st in
      let st := set_desiredNewKey (appendTokens command 4 (size - 4) (desiredNewKey st)) st in
      (st, [SetIniFileKey (c_str (sourcePath st)) (c_str (desiredSection st))
              (c_str (desiredKey st)) (c_str (desiredNewKey st))])
    else (st, [])
  else if String.eqb name "hex-by-offset" then
    if Nat.leb 4 size then
      let st := set_sourcePath (preprocessPath C (tok 1)) st in
      let st := set_offset (removeQuotes C (tok 2)) st in
      let st := set_hexDataReplacement (removeQuotes C (tok 3)) st in
      (st, [HexEditByOffset (c_str (sourcePath st)) (c_str (offset st))
              (c_str (hexDataReplacement st))])
    else (st, [])
  else if String.eqb name "hex-by-custom-offset" then
    if Nat.leb 5 size then
      let st := set_sourcePath (preprocessPath C (tok 1)) st in
      let st := set_customPattern (removeQuotes C (tok 2)) st in
      let st := set_offset (removeQuotes C (tok 3)) st in
      let st := set_hexDataReplacement (removeQuotes C (tok 4)) st in
      (st, [HexEditByCustomOffset (c_str (sourcePath st)) (c_str (customPattern st))
              (c_str (offset st)) (c_str (hexDataReplacement st))])
    else (st, [])
  else if String.eqb name "hex-by-swap" then
    if Nat.leb 4 size then
      let st := set_sourcePath (preprocessPath C (tok 1)) st in
      let st := set_hexDataToReplace (removeQuotes C (tok 2)) st in
      let st := set_hexDataReplacement (removeQuotes C (tok 3)) st in
      findReplace st command
    else (st, [])
  else if String.eqb name "hex-by-string" then
    if Nat.leb 4 size then
      let st := set_sourcePath (preprocessPath C (tok 1)) st in
      let st := set_hexDataToReplace (asciiToHex C (removeQuotes C (tok 2))) st in
      let st := set_hexDataReplacement (asciiToHex C (removeQuotes C (tok 3))) st in
      let '(toReplace, replacement) :=
        fixMismatchedSizes (hexDataToReplace st) (hexDataReplacement st) in
      let st := set_hexDataReplacement replacement (set_hexDataToReplace toReplace st) in
      findReplace st command
    else (st, [])
  else if String.eqb name "hex-by-decimal" then
    if Nat.leb 4 size then
      let st := set_sourcePath (preprocessPath C (tok 1)) st in
      let st := set_hexDataToReplace (decimalToHex C (removeQuotes C (tok 2))) st in
      let st := set_hexDataReplacement (decimalToHex C (removeQuotes C (tok 3))) st in
      findReplace st command
    else (st, [])
  else if String.eqb name "hex-by-rdecimal" then
    if Nat.leb 4 size then
      let st := set_sourcePath (preprocessPath C (tok 1)) st in
      let st := set_hexDataToReplace (decimalToReversedHex C (removeQuotes C (tok 2))) st in
      let st := set_hexDataReplacement (decimalToReversedHex C (removeQuotes C (tok 3))) st in
      findReplace st command
    else (st, [])
  else if String.eqb name "download" then
    if Nat.leb 3 size then
      let st := set_fileUrl (preprocessUrl C (tok 1)) st in
      let st := set_destinationPath (preprocessPath C (tok 2)) st in
      (st, [LogMessage ("fileUrl: " ++ fileUrl st);
            DownloadFile (fileUrl st) (destinationPath st)])
    else (st, [])
  else if String.eqb name "unzip" then
    if Nat.leb 3 size then
      let st := set_sourcePath (preprocessPath C (tok 1)) st in
      let st := set_destinationPath (preprocessPath C (tok 2)) st in
      (st, [UnzipFile (sourcePath st) (destinationPath st)])
    else (st, [])
  else if String.eqb name "reboot" then
    (st, [SplExit; FsdevUnmountAll; SpsmShutdown SpsmShutdownMode_Reboot])
  else if String.eqb name "shutdown" then
    (st, [SplExit; FsdevUnmountAll; SpsmShutdown SpsmShutdownMode_Normal])
  else (st, []).

(** One turn of the loop over [commands] (lines 322-600): the variables
    after the turn and the calls it made, in order. *)
Definition step (w : World C) (st : Vars) (unmodifiedCommand : list string)
    : Vars * list Event :=
  match unmodifiedCommand with
  | [] => (st, [])
  | token0 :: _ =>
      let st := set_commandName token0 st in
      let command := resolveCommand w (jsonPath st) unmodifiedCommand in
      dispatch st command
  end.

(** The world after the calls of a trace, first call first. *)
Definition execAll (events : list Event) (w : World C) : World C :=
  fold_left (fun w e => exec C e w) events w.

(** The loop from given variables and world: the final variables, the final
    world and the whole trace. *)
Fixpoint interpretFrom (w : World C) (st : Vars) (commands : list (list string))
    : Vars * World C * list Event :=
  match commands with
  | [] => (st, w, [])
  | unmodifiedCommand :: rest =>
      let '(st1, events) := step w st unmodifiedCommand in
      let '(st2, w2, events2) := interpretFrom (execAll events w) st1 rest in
      (st2, w2, (events ++ events2)%list)
  end.

Definition interpretAndExecuteCommand (w : World C) (commands : list (list string))
    : Vars * World C * list Event :=
  interpretFrom w initialVars commands.

(** The trace and the final world of a run. *)
Definition traceOf (r : Vars * World C * list Event) : list Event := snd r.
Definition worldOf (r : Vars * World C * list Event) : World C := snd (fst r).
Definition varsOf (r : Vars * World C * list Event) : Vars := fst (fst r).

End Interpreter.

(* ------------------------------------------------------------------ *)
(** ** The specification's side: verbs, arities, terminal commands *)

(** The verb table of the specification (section 4.1): each verb with the
    least number of tokens its command needs. *)
Definition arityTable : list (string * nat) :=
  [ ("json_data", 2); ("make", 2); ("mkdir", 2); ("copy", 3); ("cp", 3);
    ("mirror_copy", 2); ("mirror_cp", 2); ("delete", 2); ("del", 2);
    ("mirror_delete", 2); ("mirror_del", 2);
    ("rename", 3); ("move", 3); ("mv", 3);
    ("set-ini-val", 5); ("set-ini-value", 5); ("set-ini-key", 5);
    ("hex-by-offset", 4); ("hex-by-custom-offset", 5); ("hex-by-swap", 4);
    ("hex-by-string", 4); ("hex-by-decimal", 4); ("hex-by-rdecimal", 4);
    ("download", 3); ("unzip", 3); ("reboot", 0); ("shutdown", 0) ].

Fixpoint lookupArity (table : list (string * nat)) (verb : string) : option nat :=
  match table with
  | [] => None
  | (v, n) :: rest => if String.eqb verb v then Some n else lookupArity rest verb
  end.

Definition minArity (verb : string) : option nat := lookupArity arityTable verb.

Definition recognizedVerbs : list string := map fst arityTable.

(** The verbs the specification calls guarded by the path guard. *)
Definition guardedVerbs : list string := [ "delete"; "del"; "rename"; "move"; "mv" ].

(** The verbs the specification calls terminal, with the mode each passes. *)
Definition shutdownModeOf (verb : string) : Z :=
  if String.eqb verb "reboot" then SpsmShutdownMode_Reboot
  else SpsmShutdownMode_Normal.

Definition isTerminal (command : list string) : bool :=
  match command with
  | [] => false
  | verb :: _ => String.eqb verb "reboot" || String.eqb verb "shutdown"
  end.

(** A command list cut after its first reboot or shutdown command: what
    would run if such a command ended the run. *)
Fixpoint upToTerminal (commands : list (list string)) : list (list string) :=
  match commands with
  | [] => []
  | command :: rest =>
      if isTerminal command then [command] else command :: upToTerminal rest
  end.

(** The placeholder marker tested at line 342. *)
Definition placeholderMarker : string := "{json_data(".

(** What the specification says of one token [arg] and the token [arg']
    dispatched in its place while a document is active (section 4.3). *)
Definition ResolvedToken (C : Collaborators) (w : World C) (jsonPath : string)
    (arg arg' : string) : Prop :=
  (Occurs placeholderMarker arg ->
   arg' = replaceJsonSourcePlaceholder C w arg jsonPath) /\
  (~ Occurs placeholderMarker arg -> arg' = arg).

(* ------------------------------------------------------------------ *)
(** ** Collaborators to run the interpreter on examples *)

Definition hexDigit (n : nat) : ascii :=
  nth n (list_ascii_of_string "0123456789ABCDEF") "0"%char.

(** Modelled from the spec: asciiToHex (hex_funcs.hpp, not part of
    utils.hpp) is the ASCII-to-hex conversion of section 4.4, which turns
    an operand into its byte-hex string: every character becomes the two
    hexadecimal digits of its byte. *)
Fixpoint asciiToHexModel (asciiStr : string) : string :=
  match asciiStr with
  | EmptyString => EmptyString
  | String c rest =>
      String (hexDigit (nat_of_ascii c / 16))
        (String (hexDigit (nat_of_ascii c mod 16)) (asciiToHexModel rest))
  end.

(** The world is the journal of the calls made so far.  The helpers whose
    code is outside utils.hpp are stood in for: the path, URL and quote
    helpers return their argument, the decimal encoders too, and the
    resolver brackets the argument it is given with the document path. *)
Definition journal : Collaborators :=
  {| World := list Event;
     exec := fun e w => (w ++ [e])%list;
     preprocessPath := fun path => path;
     preprocessUrl := fun url => url;
     removeQuotes := fun s => s;
     asciiToHex := asciiToHexModel;
     decimalToHex := fun s => s;
     decimalToReversedHex := fun s => s;
     replaceJsonSourcePlaceholder :=
       fun _ arg jsonPath => "<" ++ jsonPath ++ ":" ++ arg ++ ">" |}.

(* ------------------------------------------------------------------ *)
(** ** Configuration paths and the key combo copy (utils.hpp, lines 105-151) *)

Definition packageFileName : string := "package.ini".
Definition configFileName : string := "config.ini".
Definition settingsPath : string := "sdmc:/config/ultrahand/".
Definition settingsConfigIniPath : string := settingsPath ++ configFileName.
Definition packageDirectory : string := "sdmc:/switch/.packages/".
Definition overlayDirectory : string := "sdmc:/switch/.overlays/".
Definition teslaSettingsConfigIniPath : string := "sdmc:/config/tesla/" ++ configFileName.
Definition overlaysIniFilePath : string := settingsPath ++ "overlays.ini".
Definition packagesIniFilePath : string := settingsPath ++ "packages.ini".

(** [std::map<std::string, std::map<std::string, std::string>>] as the
    function read uses: [count(k) > 0] is "the map answers [Some] at [k]",
    and [operator[]] is only applied to a key that [count] has found. *)
Definition IniSection : Type := string -> option string.
Definition IniData : Type := string -> option IniSection.

(** The SD card as [copyTeslaKeyComboToUltrahand] reads it: both files are
    read before the one call that writes. *)
Record IniFiles : Type := MkIniFiles {
  isFileOrDirectory : string -> bool;
  getParsedDataFromIniFile : string -> IniData
}.

(** The calls of [copyTeslaKeyComboToUltrahand], in order. *)
Inductive SettingsCall : Type :=
| Ini (call : Event)
| ParseOverlaySettings.

Definition copyTeslaKeyComboToUltrahand (F : IniFiles) : list SettingsCall :=
  let keyCombo := EmptyString in
  let keyCombo :=
    if isFileOrDirectory F teslaSettingsConfigIniPath then
      let parsedData := getParsedDataFromIniFile F teslaSettingsConfigIniPath in
      match parsedData "tesla" with
      | Some teslaSection =>
          match teslaSection "key_combo" with
          | Some value => value
          | None => keyCombo
          end
      | None => keyCombo
      end
    else keyCombo in
  let written :=
    if negb (empty keyCombo) then
      if isFileOrDirectory F settingsConfigIniPath then
        let parsedData := getParsedDataFromIniFile F settingsConfigIniPath in
        match parsedData "ultrahand" with
        | Some ultrahandSection =>
            match ultrahandSection "key_combo" with
            | None =>
                [Ini (SetIniFileValue settingsConfigIniPath "ultrahand"
                        "key_combo" keyCombo)]
            | Some _ => []
            end
        | None => []
        end
      else []
    else [] in
  (written ++ [ParseOverlaySettings])%list.

(** When the combo [value] is copied: Tesla's file exists and has a
    non-empty key_combo in its section tesla, Ultrahand's file exists with
    a section ultrahand, and that section has no key_combo yet. *)
Definition Copyable (F : IniFiles) (value : string) : Prop :=
  isFileOrDirectory F teslaSettingsConfigIniPath = true /\
  (exists teslaSection,
      getParsedDataFromIniFile F teslaSettingsConfigIniPath "tesla" = Some teslaSection /\
      teslaSection "key_combo" = Some value) /\
  value <> "" /\
  isFileOrDirectory F settingsConfigIniPath = true /\
  (exists ultrahandSection,
      getParsedDataFromIniFile F settingsConfigIniPath "ultrahand" = Some ultrahandSection /\
      ultrahandSection "key_combo" = None).

(** A card for examples: Tesla has the combo "L+DDOWN+RS"; Ultrahand's
    section holds [ultrahandKeys]. *)
Definition exampleCard (ultrahandKeys : IniSection) : IniFiles :=
  {| isFileOrDirectory := fun _ => true;
     getParsedDataFromIniFile := fun path section =>
       if String.eqb path teslaSettingsConfigIniPath then
         if String.eqb section "tesla"
         then Some (fun key => if String.eqb key "key_combo"
                               then Some "L+DDOWN+RS" else None)
         else None
       else if String.eqb section "ultrahand" then Some ultrahandKeys else None |}.

(* ------------------------------------------------------------------ *)
(** ** The path guard in summary, and predicates on traces *)

(** The tests of [isDangerousCombination] that decide its answer: the
    prefix test on the ultra-protected folders, the two equality tests on
    the protected folders, the wildcard test on the root, and the last
    loop over [dangerousPatterns]. *)
Definition isDangerousSummary (patternPath : string) : bool :=
  existsb (fun folder => prefix folder patternPath) ultraProtectedFolders
  || existsb (fun folder => String.eqb patternPath folder) protectedFolders
  || existsb (fun folder =>
                existsb (fun pattern => String.eqb patternPath (folder ++ pattern))
                        dangerousCombinationPatterns)
             protectedFolders
  || rootWildcardCheck patternPath
  || existsb (fun pattern => found (find patternPath pattern)) dangerousPatterns.

(** The protected folders that are not ultra-protected, "sdmc:/" apart. *)
Definition operableFolders : list string :=
  [ "sdmc:/atmosphere/"; "sdmc:/bootloader/"; "sdmc:/switch/"; "sdmc:/config/" ].

(** A segment as the splitting loops produce them. *)
Definition ProperSegment (segment : string) : Prop :=
  segment <> "" /\ ~ Occurs "/" segment.

(** What a call of a delete or move primitive never gets: a source the
    guard calls dangerous. *)
Definition guardedCallSafe (e : Event) : Prop :=
  match e with
  | DeleteFileOrDirectoryByPattern path
  | DeleteFileOrDirectory path => isDangerousCombination path = false
  | MoveFilesOrDirectoriesByPattern src _
  | MoveFileOrDirectory src _ => isDangerousCombination src = false
  | _ => True
  end.

(** The pattern primitives get a source with a "*", the single-path
    primitives one without. *)
Definition wildcardCallMatches (e : Event) : Prop :=
  match e with
  | CopyFileOrDirectoryByPattern src _
  | DeleteFileOrDirectoryByPattern src
  | MoveFilesOrDirectoriesByPattern src _ => Occurs "*" src
  | CopyFileOrDirectory src _
  | DeleteFileOrDirectory src
  | MoveFileOrDirectory src _ => ~ Occurs "*" src
  | _ => True
  end.

(** The verb of a command, [""] for the empty command. *)
Definition verbOf (command : list string) : string := hd EmptyString command.

(* ------------------------------------------------------------------ *)
(** ** Calls of the resolver, calls that do not return, the verb table as calls *)

(** The arguments of the calls of [replaceJsonSourcePlaceholder] in one
    turn, in order: lines 339-345 call it, when [jsonPath] is not empty, on
    every token of the command in which "{json_data(" is found, before any
    comparison of the verb. *)
Definition resolverCalls (jsonPath : string) (unmodifiedCommand : list string)
    : list string :=
  if negb (empty jsonPath) then
    filter (fun commandArg => found (find commandArg "{json_data("))
           unmodifiedCommand
  else [].

(** [journal] with a resolver that answers [answer] whatever it is asked. *)
Definition journalResolvingTo (answer : string) : Collaborators :=
  {| World := list Event;
     exec := fun e w => (w ++ [e])%list;
     preprocessPath := fun path => path;
     preprocessUrl := fun url => url;
     removeQuotes := fun s => s;
     asciiToHex := asciiToHexModel;
     decimalToHex := fun s => s;
     decimalToReversedHex := fun s => s;
     replaceJsonSourcePlaceholder := fun _ _ _ => answer |}.

(** A call of an external function need not come back: the process may end
    inside it.  [returns e] says whether the call [e] returns to the
    interpreter.  Of the calls of one turn, those made: up to and including
    the first that does not return; and whether all returned. *)
Fixpoint callsUntilNoReturn (returns : Event -> bool) (events : list Event)
    : list Event * bool :=
  match events with
  | [] => ([], true)
  | e :: rest =>
      if returns e then
        let '(made, alive) := callsUntilNoReturn returns rest in (e :: made, alive)
      else ([e], false)
  end.

(** The loop of lines 322-600 in a process that ends in the first call that
    does not return: variables, world, the calls made, and whether the loop
    reached the end of the list. *)
Fixpoint interpretWhileReturning (C : Collaborators) (returns : Event -> bool)
    (w : World C) (st : Vars) (commands : list (list string))
    : Vars * World C * list Event * bool :=
  match commands with
  | [] => (st, w, [], true)
  | unmodifiedCommand :: rest =>
      let '(st1, events) := step C w st unmodifiedCommand in
      let '(made, alive) := callsUntilNoReturn returns events in
      if alive then
        let '(st2, w2, events2, alive2) :=
          interpretWhileReturning C returns (execAll C made w) st1 rest in
        (st2, w2, (made ++ events2)%list, alive2)
      else (st1, execAll C made w, made, false)
  end.

(** The calls a process makes in which [spsmShutdown] is the one call that
    does not return. *)
Definition returnsUnlessPowerOff (e : Event) : bool :=
  match e with
  | SpsmShutdown _ => false
  | _ => true
  end.

(** The operations of the verb table of the specification (section 4.1). *)
Inductive Operation : Type :=
| OpJsonData | OpMkdir | OpCopy | OpMirrorCopy | OpDelete | OpMirrorDelete
| OpMove | OpSetIniVal | OpSetIniKey | OpHexByOffset | OpHexByCustomOffset
| OpHexBySwap | OpHexByString | OpHexByDecimal | OpHexByRDecimal
| OpDownload | OpUnzip | OpReboot | OpShutdown.

Definition operationTable : list (string * Operation) :=
  [ ("json_data", OpJsonData); ("make", OpMkdir); ("mkdir", OpMkdir);
    ("copy", OpCopy); ("cp", OpCopy);
    ("mirror_copy", OpMirrorCopy); ("mirror_cp", OpMirrorCopy);
    ("delete", OpDelete); ("del", OpDelete);
    ("mirror_delete", OpMirrorDelete); ("mirror_del", OpMirrorDelete);
    ("rename", OpMove); ("move", OpMove); ("mv", OpMove);
    ("set-ini-val", OpSetIniVal); ("set-ini-value", OpSetIniVal);
    ("set-ini-key", OpSetIniKey);
    ("hex-by-offset", OpHexByOffset); ("hex-by-custom-offset", OpHexByCustomOffset);
    ("hex-by-swap", OpHexBySwap); ("hex-by-string", OpHexByString);
    ("hex-by-decimal", OpHexByDecimal); ("hex-by-rdecimal", OpHexByRDecimal);
    ("download", OpDownload); ("unzip", OpUnzip);
    ("reboot", OpReboot); ("shutdown", OpShutdown) ].

Fixpoint lookupOperation (table : list (string * Operation)) (verb : string)
    : option Operation :=
  match table with
  | [] => None
  | (v, op) :: rest => if String.eqb verb v then Some op else lookupOperation rest verb
  end.

Definition operationOf (verb : string) : option Operation :=
  lookupOperation operationTable verb.

(** The find-and-replace call of section 6, with the occurrence when the
    command has a token for it. *)
Definition findReplaceCall (C : Collaborators) (path hexFind hexReplace : string)
    (more : list string) : list Event :=
  [HexEditFindReplace path hexFind hexReplace
     (match more with
      | token4 :: _ => Some (removeQuotes C token4)
      | [] => None
      end)].

(** The table of section 4.1 read as calls on the tokens of a command: which
    token reaches which argument of which operation.  [st] gives what the
    two appended variables hold before the command. *)
Definition callsOn (C : Collaborators) (st : Vars) (op : Operation)
    (command : list string) : list Event :=
  let path := preprocessPath C in
  let unquote := removeQuotes C in
  let wild := fun source => found (find_char source "*"%char) in
  match op, command with
  | OpMkdir, _ :: t1 :: _ => [CreateDirectory (path t1)]
  | OpCopy, _ :: t1 :: t2 :: _ =>
      if wild (path t1) then [CopyFileOrDirectoryByPattern (path t1) (path t2)]
      else [CopyFileOrDirectory (path t1) (path t2)]
  | OpMirrorCopy, _ :: t1 :: t2 :: _ => [MirrorCopyFiles (path t1) (Some (path t2))]
  | OpMirrorCopy, _ :: t1 :: [] => [MirrorCopyFiles (path t1) None]
  | OpDelete, _ :: t1 :: _ =>
      if isDangerousCombination (path t1) then []
      else if wild (path t1) then [DeleteFileOrDirectoryByPattern (path t1)]
      else [DeleteFileOrDirectory (path t1)]
  | OpMirrorDelete, _ :: t1 :: t2 :: _ => [MirrorDeleteFiles (path t1) (Some (path t2))]
  | OpMirrorDelete, _ :: t1 :: [] => [MirrorDeleteFiles (path t1) None]
  | OpMove, _ :: t1 :: t2 :: _ =>
      if isDangerousCombination (path t1) then []
      else if wild (path t1) then [MoveFilesOrDirectoriesByPattern (path t1) (path t2)]
      else [MoveFileOrDirectory (path t1) (path t2)]
  | OpSetIniVal, _ :: t1 :: t2 :: t3 :: t4 :: more =>
      [SetIniFileValue (c_str (path t1)) (c_str (unquote t2)) (c_str (unquote t3))
         (c_str (desiredValue st ++ String.concat " " (t4 :: more)))]
  | OpSetIniKey, _ :: t1 :: t2 :: t3 :: t4 :: more =>
      [SetIniFileKey (c_str (path t1)) (c_str (unquote t2)) (c_str (unquote t3))
         (c_str (desiredNewKey st ++ String.concat " " (t4 :: more)))]
  | OpHexByOffset, _ :: t1 :: t2 :: t3 :: _ =>
      [HexEditByOffset (c_str (path t1)) (c_str (unquote t2)) (c_str (unquote t3))]
  | OpHexByCustomOffset, _ :: t1 :: t2 :: t3 :: t4 :: _ =>
      [HexEditByCustomOffset (c_str (path t1)) (c_str (unquote t2))
         (c_str (unquote t3)) (c_str (unquote t4))]
  | OpHexBySwap, _ :: t1 :: t2 :: t3 :: more =>
      findReplaceCall C (path t1) (unquote t2) (unquote t3) more
  | OpHexByString, _ :: t1 :: t2 :: t3 :: more =>
      let hexFind := asciiToHex C (unquote t2) in
      let hexReplace := asciiToHex C (unquote t3) in
      findReplaceCall C (path t1)
        (hexFind ++ nulls (String.length hexReplace - String.length hexFind))
        (hexReplace ++ nulls (String.length hexFind - String.length hexReplace))
        more
  | OpHexByDecimal, _ :: t1 :: t2 :: t3 :: more =>
      findReplaceCall C (path t1) (decimalToHex C (unquote t2))
        (decimalToHex C (unquote t3)) more
  | OpHexByRDecimal, _ :: t1 :: t2 :: t3 :: more =>
      findReplaceCall C (path t1) (decimalToReversedHex C (unquote t2))
        (decimalToReversedHex C (unquote t3)) more
  | OpDownload, _ :: t1 :: t2 :: _ =>
      [LogMessage ("fileUrl: " ++ preprocessUrl C t1);
       DownloadFile (preprocessUrl C t1) (path t2)]
  | OpUnzip, _ :: t1 :: t2 :: _ => [UnzipFile (path t1) (path t2)]
  | OpReboot, _ => [SplExit; FsdevUnmountAll; SpsmShutdown SpsmShutdownMode_Reboot]
  | OpShutdown, _ => [SplExit; FsdevUnmountAll; SpsmShutdown SpsmShutdownMode_Normal]
  | _, _ => []
  end.

(** The calls of the command [command] dispatched under the verb [verb]:
    none for a verb outside the table. *)
Definition callsFor (C : Collaborators) (st : Vars) (verb : string)
    (command : list string) : list Event :=
  match operationOf verb with
  | Some op => callsOn C st op command
  | None => []
  end.

(* ------------------------------------------------------------------ *)
(** ** Facts about strings and [find] *)

Section StringFacts.

Lemma prefix_app (t b : string) : prefix t (t ++ b) = true.
Proof.
  induction t as [|c t IH]; simpl.
  - now destruct b.
  - destruct (ascii_dec c c) as [_|ne]; [exact IH | now elim ne].
Qed.

(** A prefix is found at position 0. *)
Lemma find_prefix (t b : string) : find (t ++ b) t = Some 0.
Proof.
  unfold find.
  destruct (t ++ b) as [|c r] eqn:E.
  - destruct t; [reflexivity | discriminate].
  - cbn [index]. rewrite <- E, prefix_app. reflexivity.
Qed.

(** An occurrence anywhere is found somewhere. *)
Lemma find_occurs (t s : string) : Occurs t s -> found (find s t) = true.
Proof.
  intros (a & b & ->).
  induction a as [|c a IH].
  - change ("" ++ t ++ b) with (t ++ b). now rewrite find_prefix.
  - unfold find in *. change (String c a ++ t ++ b) with (String c (a ++ t ++ b)).
    cbn [index].
    destruct (prefix t (String c (a ++ t ++ b))); [reflexivity|].
    destruct (index 0 t (a ++ t ++ b)); [reflexivity | discriminate].
Qed.

Lemma substring_prefix (t s : string) :
  substring 0 (String.length t) s = t -> exists b, s = t ++ b.
Proof.
  revert s. induction t as [|c t IH]; intros s H.
  - now exists s.
  - destruct s as [|c' s']; [discriminate|].
    cbn in H. injection H as -> H.
    destruct (IH s' H) as [b ->]. now exists b.
Qed.

Lemma substring_occurs (m : nat) (t s : string) :
  substring m (String.length t) s = t -> Occurs t s.
Proof.
  revert s. induction m as [|m IH]; intros s H.
  - destruct (substring_prefix t s H) as [b ->]. now exists "", b.
  - destruct s as [|c s'].
    + destruct t; [now exists "", "" | discriminate].
    + cbn in H. destruct (IH s' H) as (a & b & ->).
      now exists (String c a), b.
Qed.

(** [find] answers a position exactly when there is an occurrence. *)
Lemma found_find_iff (s t : string) : found (find s t) = true <-> Occurs t s.
Proof.
  split; [|apply find_occurs].
  unfold find. destruct (index 0 t s) as [m|] eqn:E; [|discriminate].
  intros _. apply index_correct1 in E. now apply substring_occurs with m.
Qed.

Lemma append_empty_r (s : string) : s ++ "" = s.
Proof. induction s as [|c s IH]; [reflexivity | cbn; now rewrite IH]. Qed.

Lemma append_assoc (a b c : string) : (a ++ b) ++ c = a ++ (b ++ c).
Proof. induction a as [|x a IH]; [reflexivity | cbn; now rewrite IH]. Qed.

Lemma length_append (a b : string) :
  String.length (a ++ b) = String.length a + String.length b.
Proof. induction a as [|x a IH]; [reflexivity | cbn; now rewrite IH]. Qed.

Lemma length_nulls (n : nat) : String.length (nulls n) = n.
Proof. induction n as [|n IH]; [reflexivity | cbn; now rewrite IH]. Qed.

End StringFacts.

(* ------------------------------------------------------------------ *)
(** ** The path guard: theorems *)

(** C3.  A path that starts with an ultra-protected folder ("sdmc:/Nintendo/"
    or "sdmc:/emuMMC/") is dangerous, whatever follows the folder. *)
Theorem ultra_protected_prefix_dangerous :
  forall folder suffix : string,
    In folder ultraProtectedFolders ->
    isDangerousCombination (folder ++ suffix) = true.
Proof.
  intros folder suffix Hin.
  unfold isDangerousCombination.
  replace (existsb _ ultraProtectedFolders) with true; [reflexivity|].
  symmetry. apply existsb_exists.
  exists folder. split; [assumption|].
  now rewrite find_prefix.
Qed.

Lemma ultra_protected_prefix_dangerous_witness :
  In "sdmc:/emuMMC/" ultraProtectedFolders /\
  isDangerousCombination ("sdmc:/emuMMC/" ++ "RAW1/eMMC/00") = true.
Proof.
  assert (H : In "sdmc:/emuMMC/" ultraProtectedFolders) by (simpl; auto).
  split; [exact H|].
  exact (ultra_protected_prefix_dangerous "sdmc:/emuMMC/" "RAW1/eMMC/00" H).
Defined.

(** C4.  A wildcard directly at a protected root, "sdmc:/switch/*", is
    dangerous; a wildcard one level below it, "sdmc:/switch/sub/*", is not. *)
Theorem wildcard_at_root_and_nested :
  isDangerousCombination "sdmc:/switch/*" = true /\
  isDangerousCombination "sdmc:/switch/sub/*" = false.
Proof.
  split; vm_compute; reflexivity.
Qed.

(** C9.  A path in which ".." or "~" occurs anywhere is dangerous, inside or
    outside the protected folders and the sdmc: volume. *)
Theorem traversal_or_home_anywhere_dangerous :
  forall patternPath : string,
    Occurs ".." patternPath \/ Occurs "~" patternPath ->
    isDangerousCombination patternPath = true.
Proof.
  intros patternPath H.
  unfold isDangerousCombination.
  repeat match goal with |- (if ?c then true else _) = true => destruct c; [reflexivity|] end.
  cbn [existsb dangerousPatterns].
  destruct H as [H|H]; apply find_occurs in H; rewrite H.
  - reflexivity.
  - now rewrite orb_true_r.
Qed.

Lemma traversal_or_home_anywhere_dangerous_witness :
  isDangerousCombination "usb:/backup/../secret" = true.
Proof.
  apply traversal_or_home_anywhere_dangerous.
  left. exists "usb:/backup/", "/secret". reflexivity.
Defined.

(* ------------------------------------------------------------------ *)
(** ** Running the interpreter on the examples of the specification *)

Example asciiToHexModel_AB : asciiToHexModel "AB" = "4142".
Proof. reflexivity. Qed.

Example guard_examples :
  isDangerousCombination "sdmc:/" = true /\
  isDangerousCombination "sdmc:/switch/.overlays/foo" = false /\
  isDangerousCombination "sdmc:/switch/../x" = true.
Proof. repeat split; vm_compute; reflexivity. Qed.

Example json_data_then_placeholder :
  traceOf journal
    (interpretAndExecuteCommand journal []
       [["mkdir"; "{json_data(a.b)}"]; ["json_data"; "doc.json"];
        ["mkdir"; "{json_data(a.b)}"; "plain"]])
  = [CreateDirectory "{json_data(a.b)}";
     CreateDirectory "<doc.json:{json_data(a.b)}>"].
Proof. reflexivity. Qed.

Example mkdir_then_copy :
  traceOf journal
    (interpretAndExecuteCommand journal [] [["mkdir"; "X"]; ["copy"; "X/*"; "Y"]])
  = [CreateDirectory "X"; CopyFileOrDirectoryByPattern "X/*" "Y"].
Proof. reflexivity. Qed.

(* ------------------------------------------------------------------ *)
(** ** The loop and its variables *)

Section LoopFacts.

Variable C : Collaborators.

Lemma set_commandName_twice (a b : string) (st : Vars) :
  set_commandName a (set_commandName b st) = set_commandName a st.
Proof. now destruct st. Qed.

Lemma jsonPath_set_commandName (a : string) (st : Vars) :
  jsonPath (set_commandName a st) = jsonPath st.
Proof. now destruct st. Qed.

Lemma commandName_set_commandName (a : string) (st : Vars) :
  commandName (set_commandName a st) = a.
Proof. now destruct st. Qed.

Lemma resolveCommand_length (w : World C) (path : string) (command : list string) :
  List.length (resolveCommand C w path command) = List.length command.
Proof.
  unfold resolveCommand. destruct (negb (empty path)); [apply length_map | reflexivity].
Qed.

Lemma step_cons (w : World C) (st : Vars) (token0 : string) (rest : list string) :
  step C w st (token0 :: rest) =
  dispatch C (set_commandName token0 st)
    (resolveCommand C w (jsonPath st) (token0 :: rest)).
Proof. unfold step. now rewrite jsonPath_set_commandName. Qed.

(** [commandName] is assigned before it is read: its value at the start of
    a turn does not matter. *)
Lemma step_set_commandName (v : string) (w : World C) (st : Vars)
    (token0 : string) (rest : list string) :
  step C w (set_commandName v st) (token0 :: rest) = step C w st (token0 :: rest).
Proof.
  rewrite !step_cons, set_commandName_twice, jsonPath_set_commandName. reflexivity.
Qed.

Lemma interpretFrom_set_commandName (commands : list (list string)) :
  forall (v : string) (w : World C) (st : Vars),
    traceOf C (interpretFrom C w (set_commandName v st) commands) =
      traceOf C (interpretFrom C w st commands) /\
    worldOf C (interpretFrom C w (set_commandName v st) commands) =
      worldOf C (interpretFrom C w st commands).
Proof.
  induction commands as [|command rest IH]; intros v w st.
  - split; reflexivity.
  - destruct command as [|token0 tokens].
    + cbn [interpretFrom step]. cbn [execAll fold_left].
      specialize (IH v w st).
      destruct (interpretFrom C w (set_commandName v st) rest) as [[s1 w1] e1].
      destruct (interpretFrom C w st rest) as [[s2 w2] e2].
      exact IH.
    + cbn [interpretFrom]. rewrite step_set_commandName. split; reflexivity.
Qed.

(** A turn that only assigns [commandName] and makes no call leaves the
    rest of the run as it would be without the command. *)
Lemma interpretFrom_skip (w : World C) (st : Vars) (command : list string)
    (v : string) (later : list (list string)) :
  step C w st command = (set_commandName v st, []) ->
  traceOf C (interpretFrom C w st (command :: later)) =
    traceOf C (interpretFrom C w st later) /\
  worldOf C (interpretFrom C w st (command :: later)) =
    worldOf C (interpretFrom C w st later).
Proof.
  intros Hstep. cbn [interpretFrom]. rewrite Hstep. cbn [execAll fold_left].
  destruct (interpretFrom_set_commandName later v w st) as [Ht Hw].
  destruct (interpretFrom C w (set_commandName v st) later) as [[s1 w1] e1].
  destruct (interpretFrom C w st later) as [[s2 w2] e2].
  split; [exact Ht | exact Hw].
Qed.

(** The chain of comparisons falls through for a name outside the table. *)
Lemma dispatch_unknown (st : Vars) (command : list string) :
  ~ In (commandName st) recognizedVerbs ->
  dispatch C st command = (st, []).
Proof.
  intros Hout. unfold dispatch. cbv zeta.
  remember (commandName st) as name eqn:Hname.
  repeat match goal with
         | |- context [String.eqb name ?v] =>
             destruct (String.eqb_spec name v) as [e|_];
             [exfalso; apply Hout; rewrite e; vm_compute; tauto|]
         end.
  reflexivity.
Qed.

(** Below the arity of the table every branch takes its empty [else]. *)
Lemma dispatch_below_arity (st : Vars) (command : list string) (n : nat) :
  minArity (commandName st) = Some n ->
  List.length command < n ->
  dispatch C st command = (st, []).
Proof.
  intros Har Hlen. unfold dispatch. cbv zeta.
  remember (commandName st) as name eqn:Hname.
  unfold minArity in Har. cbn [arityTable lookupArity] in Har.
  repeat match type of Har with
         | context [String.eqb name ?v] =>
             destruct (String.eqb_spec name v) as [e|?];
             [ cbn [orb]; injection Har as <-;
               first [ exfalso; lia
                     | apply Nat.leb_gt in Hlen; rewrite Hlen; reflexivity ]
             | ]
         end.
  discriminate.
Qed.

End LoopFacts.

(* ------------------------------------------------------------------ *)
(** ** The dispatcher: arity, unknown verbs, the guard, power commands *)

Section DispatchFacts.

Variable C : Collaborators.

Lemma dispatch_guarded (st : Vars) (command : list string) :
  In (commandName st) guardedVerbs ->
  isDangerousCombination (preprocessPath C (nth 1 command "")) = true ->
  snd (dispatch C st command) = [].
Proof.
  intros Hin Hdanger. unfold dispatch. cbv zeta.
  remember (commandName st) as name eqn:Hname.
  destruct st as [a b c d e0 f g h i j k l m n].
  cbn [set_sourcePath set_destinationPath sourcePath].
  rewrite Hdanger. cbn [negb].
  repeat match goal with
         | |- context [String.eqb name ?v] =>
             destruct (String.eqb_spec name v) as [e|?];
             [ cbn [orb];
               first [ solve [ exfalso; rewrite e in Hin; cbn in Hin;
                               intuition discriminate ]
                     | destruct (Nat.leb _ (List.length command)); reflexivity ]
             | ]
         end.
  reflexivity.
Qed.

Lemma dispatch_terminal (st : Vars) (command : list string) :
  commandName st = "reboot" \/ commandName st = "shutdown" ->
  dispatch C st command =
  (st, [SplExit; FsdevUnmountAll; SpsmShutdown (shutdownModeOf (commandName st))]).
Proof.
  intros [e|e]; unfold dispatch; rewrite e; reflexivity.
Qed.

(** [mirror_delete] calls [mirrorDeleteFiles] whatever the guard says of
    its source path. *)
Lemma dispatch_mirror_delete (st : Vars) (command : list string) :
  commandName st = "mirror_delete" \/ commandName st = "mirror_del" ->
  2 <= List.length command ->
  snd (dispatch C st command) =
  [MirrorDeleteFiles (preprocessPath C (nth 1 command ""))
     (if Nat.leb 3 (List.length command)
      then Some (preprocessPath C (nth 2 command "")) else None)].
Proof.
  intros Hname Hlen. unfold dispatch. cbv zeta.
  apply Nat.leb_le in Hlen as Hleb.
  destruct Hname as [e|e]; rewrite e; cbn [String.eqb Ascii.eqb Bool.eqb orb];
    rewrite Hleb; destruct (Nat.leb 3 (List.length command));
    destruct st; reflexivity.
Qed.

Lemma nth_error_length_lt {A : Type} (l : list A) (i : nat) (x : A) :
  nth_error l i = Some x -> i < List.length l.
Proof. intros H. apply nth_error_Some. congruence. Qed.

End DispatchFacts.

(** All the branches of [dispatch], one goal each, with the tests of the
    branch as hypotheses. *)
Ltac dispatch_branches name :=
  repeat match goal with
         | |- context [String.eqb name ?v] =>
             destruct (String.eqb_spec name v) as [?|?]; cbn [orb]
         end;
  repeat match goal with
         | |- context [if ?c then _ else _] => destruct c eqn:?
         | |- context [fixMismatchedSizes ?a ?b] =>
             destruct (fixMismatchedSizes a b) as [? ?] eqn:?
         end.

Ltac open_dispatch st name :=
  unfold dispatch, findReplace; cbv zeta;
  destruct st as [name ? ? ? ? ? ? ? ? ? ? ? ? ?];
  cbn [set_commandName set_jsonPath set_sourcePath set_destinationPath
       set_desiredSection set_desiredKey set_desiredNewKey set_desiredValue
       set_offset set_customPattern set_hexDataToReplace set_hexDataReplacement
       set_fileUrl set_occurrence
       commandName jsonPath sourcePath destinationPath desiredSection desiredKey
       desiredNewKey desiredValue offset customPattern hexDataToReplace
       hexDataReplacement fileUrl occurrence].

(* ------------------------------------------------------------------ *)
(** ** Placeholders, joined values and padded operands *)

Section TokenFacts.

Variable C : Collaborators.

Lemma resolveCommand_unset (w : World C) (command : list string) :
  resolveCommand C w "" command = command.
Proof. reflexivity. Qed.

Lemma resolveCommand_set (w : World C) (path : string) (command : list string) :
  path <> "" ->
  Forall2 (ResolvedToken C w path) command (resolveCommand C w path command).
Proof.
  intros Hset. unfold resolveCommand.
  destruct path as [|c path]; [now elim Hset|]. cbn [empty negb].
  induction command as [|arg command IH]; cbn [map]; constructor; [|exact IH].
  unfold ResolvedToken, placeholderMarker.
  destruct (found (find arg "{json_data(")) eqn:E; split; intros H.
  - reflexivity.
  - elim H. now apply found_find_iff.
  - apply found_find_iff in H. congruence.
  - reflexivity.
Qed.

(** The joining loop appends the tokens from [i] on, separated by single
    spaces, to what the variable already holds. *)
Lemma appendTokens_concat (command : list string) :
  forall (turns i : nat) (acc : string),
    i + turns = List.length command ->
    appendTokens command i turns acc = acc ++ String.concat " " (skipn i command).
Proof.
  induction turns as [|turns IH]; intros i acc Hlen.
  - cbn [appendTokens]. rewrite skipn_all2 by lia. cbn. now rewrite append_empty_r.
  - cbn [appendTokens].
    assert (Hsplit : skipn i command = nth i command "" :: skipn (S i) command).
    { clear IH. revert i Hlen. induction command as [|x xs IHc]; intros i Hlen.
      - cbn in Hlen. lia.
      - destruct i as [|i]; [reflexivity|]. cbn. apply IHc. cbn in Hlen. lia. }
    rewrite Hsplit, IH by lia.
    destruct (Nat.ltb_spec i (List.length command - 1)) as [Hlt|Hge].
    + destruct (skipn (S i) command) as [|y ys] eqn:Erest.
      * apply (f_equal (@List.length string)) in Erest.
        rewrite length_skipn in Erest. cbn in Erest. lia.
      * cbn [String.concat]. now rewrite !append_assoc.
    + rewrite skipn_all2 by lia. cbn [String.concat]. now rewrite append_empty_r.
Qed.

(** What a set-ini-val command passes as the value: the earlier content of
    [desiredValue] followed by tokens 4.. joined with single spaces. *)
Lemma set_ini_val_value (st : Vars) (command : list string) :
  commandName st = "set-ini-val" \/ commandName st = "set-ini-value" ->
  5 <= List.length command ->
  snd (dispatch C st command) =
  [SetIniFileValue
     (c_str (preprocessPath C (nth 1 command "")))
     (c_str (removeQuotes C (nth 2 command "")))
     (c_str (removeQuotes C (nth 3 command "")))
     (c_str (desiredValue st ++ String.concat " " (skipn 4 command)))].
Proof.
  intros Hname Hlen. unfold dispatch. cbv zeta.
  apply Nat.leb_le in Hlen as Hleb.
  destruct Hname as [e|e]; rewrite e; cbn [String.eqb Ascii.eqb Bool.eqb orb];
    rewrite Hleb; rewrite appendTokens_concat by lia;
    destruct st; reflexivity.
Qed.

Lemma fixMismatchedSizes_pads (toReplace replacement : string) :
  fixMismatchedSizes toReplace replacement =
  (toReplace ++ nulls (String.length replacement - String.length toReplace),
   replacement ++ nulls (String.length toReplace - String.length replacement)).
Proof.
  unfold fixMismatchedSizes.
  destruct (Nat.ltb_spec (String.length replacement) (String.length toReplace)) as [H|H].
  - replace (String.length replacement - String.length toReplace) with 0 by lia.
    cbn [nulls]. now rewrite append_empty_r.
  - destruct (Nat.ltb_spec (String.length toReplace) (String.length replacement)) as [H'|H'].
    + replace (String.length toReplace - String.length replacement) with 0 by lia.
      cbn [nulls]. now rewrite append_empty_r.
    + replace (String.length toReplace - String.length replacement) with 0 by lia.
      replace (String.length replacement - String.length toReplace) with 0 by lia.
      cbn [nulls]. now rewrite !append_empty_r.
Qed.

Lemma hex_by_string_call (st : Vars) (command : list string) :
  commandName st = "hex-by-string" ->
  4 <= List.length command ->
  snd (dispatch C st command) =
  [HexEditFindReplace
     (preprocessPath C (nth 1 command ""))
     (fst (fixMismatchedSizes (asciiToHex C (removeQuotes C (nth 2 command "")))
                              (asciiToHex C (removeQuotes C (nth 3 command "")))))
     (snd (fixMismatchedSizes (asciiToHex C (removeQuotes C (nth 2 command "")))
                              (asciiToHex C (removeQuotes C (nth 3 command "")))))
     (if Nat.leb 5 (List.length command)
      then Some (removeQuotes C (nth 4 command "")) else None)].
Proof.
  intros e Hlen. unfold dispatch. cbv zeta.
  apply Nat.leb_le in Hlen as Hleb.
  rewrite e. cbn [String.eqb Ascii.eqb Bool.eqb orb]. rewrite Hleb.
  destruct st as [a b c d e0 f g h i j k l m n].
  cbn [set_sourcePath set_hexDataToReplace set_hexDataReplacement
       hexDataToReplace hexDataReplacement].
  destruct (fixMismatchedSizes _ _) as [x y]. cbn [fst snd].
  unfold findReplace. destruct (Nat.leb 5 (List.length command)); reflexivity.
Qed.

End TokenFacts.

(* ------------------------------------------------------------------ *)
(** ** Turns inside a run, the verb table as calls, calls that do not return *)

Section TurnFacts.

Variable C : Collaborators.

(** Every command of a list gets its turn: the trace of a run is the trace
    of the commands before it, then the calls of its own turn, then the
    trace of the commands after it. *)
Lemma interpretFrom_turn (w : World C) (st : Vars) (l1 : list (list string))
    (next : list string) (l2 : list (list string)) :
  traceOf C (interpretFrom C w st (l1 ++ next :: l2)%list) =
  (traceOf C (interpretFrom C w st l1) ++
   snd (step C (worldOf C (interpretFrom C w st l1))
               (varsOf C (interpretFrom C w st l1)) next) ++
   traceOf C (interpretFrom C
                (execAll C
                   (snd (step C (worldOf C (interpretFrom C w st l1))
                                (varsOf C (interpretFrom C w st l1)) next))
                   (worldOf C (interpretFrom C w st l1)))
                (fst (step C (worldOf C (interpretFrom C w st l1))
                             (varsOf C (interpretFrom C w st l1)) next))
                l2))%list.
Proof.
  induction l1 as [|command l1 IH] in w, st |- *.
  - cbn [app interpretFrom]. unfold traceOf, worldOf, varsOf. cbn [fst snd app].
    destruct (step C w st next) as [st1 events]. cbn [fst snd].
    now destruct (interpretFrom C (execAll C events w) st1 l2) as [[s2 w2] e2].
  - cbn [app interpretFrom].
    destruct (step C w st command) as [st1 events].
    specialize (IH (execAll C events w) st1).
    destruct (interpretFrom C (execAll C events w) st1 (l1 ++ next :: l2))
      as [[s w'] e].
    destruct (interpretFrom C (execAll C events w) st1 l1) as [[s1 w1] e1].
    unfold traceOf, worldOf, varsOf in *. cbn [fst snd] in *.
    rewrite IH. now rewrite <- app_assoc.
Qed.

(** The calls of a turn are those of the verb table on the command
    dispatched. *)
Lemma dispatch_calls (st : Vars) (command : list string) :
  snd (dispatch C st command) = callsFor C st (commandName st) command.
Proof.
  unfold callsFor, operationOf. cbn [operationTable lookupOperation].
  unfold dispatch, findReplace. cbv zeta.
  destruct st as [name ? ? ? ? ? ? ? ? ? ? ? ? ?].
  cbn [set_commandName set_jsonPath set_sourcePath set_destinationPath
       set_desiredSection set_desiredKey set_desiredNewKey set_desiredValue
       set_offset set_customPattern set_hexDataToReplace set_hexDataReplacement
       set_fileUrl set_occurrence
       commandName jsonPath sourcePath destinationPath desiredSection desiredKey
       desiredNewKey desiredValue offset customPattern hexDataToReplace
       hexDataReplacement fileUrl occurrence].
  repeat match goal with
         | |- context [String.eqb name ?v] =>
             destruct (String.eqb_spec name v) as [?|?]; cbn [orb];
             [ unfold callsOn, findReplaceCall; cbv zeta;
               rewrite ?fixMismatchedSizes_pads;
               destruct command as [|t0 [|t1 [|t2 [|t3 [|t4 more]]]]];
               rewrite ?appendTokens_concat by (cbn [List.length]; lia);
               cbn [List.length Nat.leb Nat.sub nth skipn fst snd];
               repeat match goal with
                      | |- context [negb ?x] => destruct x; cbn [negb]
                      | |- context [if ?c then _ else _] => destruct c
                      end;
               reflexivity
             | ]
         end.
  reflexivity.
Qed.

Lemma callsFor_set_commandName (v verb : string) (st : Vars) (command : list string) :
  callsFor C (set_commandName v st) verb command = callsFor C st verb command.
Proof. now destruct st. Qed.

Lemma step_calls (w : World C) (st : Vars) (token0 : string) (operands : list string) :
  snd (step C w st (token0 :: operands)) =
  callsFor C st token0 (resolveCommand C w (jsonPath st) (token0 :: operands)).
Proof.
  rewrite step_cons, dispatch_calls, commandName_set_commandName.
  apply callsFor_set_commandName.
Qed.

Lemma resolverCalls_spec (path : string) (command : list string) (token : string) :
  In token (resolverCalls path command) <->
  path <> "" /\ In token command /\ Occurs placeholderMarker token.
Proof.
  unfold resolverCalls, placeholderMarker. destruct path as [|c path]; cbn [empty negb].
  - split; [intros [] | intros [H _]; now elim H].
  - rewrite filter_In, found_find_iff. split.
    + intros [H1 H2]. split; [discriminate | now split].
    + intros (_ & H1 & H2). now split.
Qed.

Lemma callsUntilNoReturn_all (returns : Event -> bool) (events : list Event) :
  Forall (fun e => returns e = true) events ->
  callsUntilNoReturn returns events = (events, true).
Proof.
  induction 1 as [|e events He _ IH]; [reflexivity|].
  cbn [callsUntilNoReturn]. now rewrite He, IH.
Qed.

Lemma callsUntilNoReturn_power (returns : Event -> bool) (mode : Z) :
  returns (SpsmShutdown mode) = false ->
  snd (callsUntilNoReturn returns [SplExit; FsdevUnmountAll; SpsmShutdown mode]) = false.
Proof.
  intros H. cbn [callsUntilNoReturn]. rewrite H.
  destruct (returns SplExit), (returns FsdevUnmountAll); reflexivity.
Qed.

Lemma isTerminal_verb (command : list string) :
  isTerminal command = true ->
  exists verb operands,
    command = verb :: operands /\ (verb = "reboot" \/ verb = "shutdown").
Proof.
  destruct command as [|verb operands]; [discriminate|]. cbn [isTerminal].
  intros H. exists verb, operands. split; [reflexivity|].
  apply orb_true_iff in H. now rewrite !String.eqb_eq in H.
Qed.

Lemma step_terminal (w : World C) (st : Vars) (verb : string) (operands : list string) :
  verb = "reboot" \/ verb = "shutdown" ->
  step C w st (verb :: operands) =
  (set_commandName verb st,
   [SplExit; FsdevUnmountAll; SpsmShutdown (shutdownModeOf verb)]).
Proof.
  intros Hverb. rewrite step_cons, dispatch_terminal.
  - now rewrite commandName_set_commandName.
  - now rewrite commandName_set_commandName.
Qed.

(** Only the power commands call [spsmShutdown]. *)
Lemma dispatch_no_power (st : Vars) (command : list string) :
  commandName st <> "reboot" ->
  commandName st <> "shutdown" ->
  Forall (fun e => forall mode, e <> SpsmShutdown mode) (snd (dispatch C st command)).
Proof.
  intros H1 H2. open_dispatch st name. cbn [commandName] in H1, H2.
  dispatch_branches name; try contradiction;
    cbn [snd]; repeat constructor; intros mode; discriminate.
Qed.

Lemma step_no_power (w : World C) (st : Vars) (command : list string) :
  isTerminal command = false ->
  Forall (fun e => forall mode, e <> SpsmShutdown mode) (snd (step C w st command)).
Proof.
  intros H. destruct command as [|verb operands]; [constructor|].
  cbn [isTerminal] in H. apply orb_false_iff in H. destruct H as [H1 H2].
  apply String.eqb_neq in H1, H2.
  rewrite step_cons. apply dispatch_no_power; now rewrite commandName_set_commandName.
Qed.

Lemma interpretWhileReturning_upToTerminal (returns : Event -> bool) :
  (forall mode, returns (SpsmShutdown mode) = false) ->
  forall commands w st,
    interpretWhileReturning C returns w st commands =
    interpretWhileReturning C returns w st (upToTerminal commands).
Proof.
  intros Hpower. induction commands as [|command rest IH]; intros w st; [reflexivity|].
  cbn [upToTerminal]. destruct (isTerminal command) eqn:E.
  - destruct (isTerminal_verb command E) as (verb & operands & -> & Hverb).
    cbn [interpretWhileReturning]. rewrite (step_terminal w st verb operands Hverb).
    pose proof (callsUntilNoReturn_power returns (shutdownModeOf verb) (Hpower _)) as Hc.
    destruct (callsUntilNoReturn returns _) as [made alive]. cbn [snd] in Hc. now subst alive.
  - cbn [interpretWhileReturning].
    destruct (step C w st command) as [st1 events].
    destruct (callsUntilNoReturn returns events) as [made [|]]; [|reflexivity].
    now rewrite IH.
Qed.

Lemma interpretWhileReturning_power (returns : Event -> bool) :
  (forall mode, returns (SpsmShutdown mode) = false) ->
  (forall e, (forall mode, e <> SpsmShutdown mode) -> returns e = true) ->
  forall (before : list (list string)) (verb : string) (operands : list string)
         (later : list (list string)) (w : World C) (st : Vars),
    Forall (fun command => isTerminal command = false) before ->
    verb = "reboot" \/ verb = "shutdown" ->
    interpretWhileReturning C returns w st (before ++ (verb :: operands) :: later)%list =
    (set_commandName verb (varsOf C (interpretFrom C w st before)),
     execAll C [SplExit; FsdevUnmountAll; SpsmShutdown (shutdownModeOf verb)]
       (worldOf C (interpretFrom C w st before)),
     (traceOf C (interpretFrom C w st before) ++
      [SplExit; FsdevUnmountAll; SpsmShutdown (shutdownModeOf verb)])%list,
     false).
Proof.
  intros Hpower Hother before verb operands later.
  induction before as [|command before IH]; intros w st Hbefore Hverb.
  - cbn [app interpretWhileReturning interpretFrom].
    rewrite (step_terminal w st verb operands Hverb).
    cbn [callsUntilNoReturn].
    rewrite (Hother SplExit) by (intros; discriminate).
    rewrite (Hother FsdevUnmountAll) by (intros; discriminate).
    rewrite Hpower. reflexivity.
  - inversion Hbefore as [|? ? Hc Hrest]; subst.
    cbn [app interpretWhileReturning interpretFrom].
    pose proof (step_no_power w st command Hc) as Hno.
    destruct (step C w st command) as [st1 events]. cbn [snd] in Hno.
    rewrite callsUntilNoReturn_all
      by (eapply Forall_impl; [|exact Hno]; intros e He; now apply Hother).
    rewrite (IH (execAll C events w) st1 Hrest Hverb).
    destruct (interpretFrom C (execAll C events w) st1 before) as [[s1 w1] e1].
    unfold varsOf, worldOf, traceOf. cbn [fst snd]. now rewrite app_assoc.
Qed.

End TurnFacts.

(** C7.  A command with fewer tokens than the table of section 4.1 asks for
    its verb does nothing: the turn makes no call (so no [logMessage]
    either) and writes only the scratch variable [commandName].  The
    commands after it are all executed: the run goes on with them from the
    same world, and each of them gets its turn, whose calls stand in the
    trace between those of the commands before and after it. *)
Theorem below_min_arity_is_skipped :
  forall (C : Collaborators) (w : World C) (st : Vars) (verb : string)
         (operands : list string) (n : nat) (later : list (list string)),
    minArity verb = Some n ->
    List.length (verb :: operands) < n ->
    step C w st (verb :: operands) = (set_commandName verb st, []) /\
    traceOf C (interpretFrom C w st ((verb :: operands) :: later)) =
      traceOf C (interpretFrom C w st later) /\
    worldOf C (interpretFrom C w st ((verb :: operands) :: later)) =
      worldOf C (interpretFrom C w st later) /\
    interpretFrom C w st ((verb :: operands) :: later) =
      interpretFrom C w (set_commandName verb st) later /\
    (forall (l1 : list (list string)) (next : list string) (l2 : list (list string)),
        later = (l1 ++ next :: l2)%list ->
        traceOf C (interpretFrom C w st ((verb :: operands) :: later)) =
        (traceOf C (interpretFrom C w (set_commandName verb st) l1) ++
         snd (step C (worldOf C (interpretFrom C w (set_commandName verb st) l1))
                     (varsOf C (interpretFrom C w (set_commandName verb st) l1)) next) ++
         traceOf C
           (interpretFrom C
              (execAll C
                 (snd (step C (worldOf C (interpretFrom C w (set_commandName verb st) l1))
                              (varsOf C (interpretFrom C w (set_commandName verb st) l1))
                              next))
                 (worldOf C (interpretFrom C w (set_commandName verb st) l1)))
              (fst (step C (worldOf C (interpretFrom C w (set_commandName verb st) l1))
                           (varsOf C (interpretFrom C w (set_commandName verb st) l1))
                           next))
              l2))%list).
Proof.
  intros C w st verb operands n later Har Hlen.
  assert (Hstep : step C w st (verb :: operands) = (set_commandName verb st, [])).
  { rewrite step_cons. apply dispatch_below_arity with (n := n).
    - now rewrite commandName_set_commandName.
    - now rewrite resolveCommand_length. }
  assert (Hrun : interpretFrom C w st ((verb :: operands) :: later) =
                 interpretFrom C w (set_commandName verb st) later).
  { cbn [interpretFrom]. rewrite Hstep. cbn [execAll fold_left].
    now destruct (interpretFrom C w (set_commandName verb st) later) as [[s2 w2] e2]. }
  split; [exact Hstep|].
  split; [exact (proj1 (interpretFrom_skip C w st (verb :: operands) verb later Hstep))|].
  split; [exact (proj2 (interpretFrom_skip C w st (verb :: operands) verb later Hstep))|].
  split; [exact Hrun|].
  intros l1 next l2 ->. rewrite Hrun. apply interpretFrom_turn.
Qed.

Lemma below_min_arity_is_skipped_witness :
  traceOf journal
    (interpretFrom journal [] initialVars
       [["copy"; "/a"]; ["mkdir"; "X"]; ["unzip"; "a.zip"; "out"]])
  = [CreateDirectory "X"; UnzipFile "a.zip" "out"].
Proof.
  refine (proj2 (proj2 (proj2 (proj2
            (below_min_arity_is_skipped journal [] initialVars "copy" ["/a"] 3
               [["mkdir"; "X"]; ["unzip"; "a.zip"; "out"]] _ _))))
            [] ["mkdir"; "X"] [["unzip"; "a.zip"; "out"]] eq_refl).
  - reflexivity.
  - simpl. lia.
Defined.

(** C10, as the code has it.  A non-empty command whose verb is none of the
    recognized ones performs no operation: the turn makes no call of an
    operation, leaves the active document path and every other variable as
    they were (it only assigns the scratch variable [commandName], which
    each turn overwrites before reading), leaves the world as it was, and
    the commands after it are all executed, each in its turn.  One
    collaborator is still called: while a document is active, lines 339-345
    call the placeholder resolver on every token of the command in which
    the marker occurs; what it answers reaches no operation. *)
Theorem unrecognized_verb_is_noop :
  forall (C : Collaborators) (w : World C) (st : Vars) (verb : string)
         (operands : list string) (later : list (list string)),
    ~ In verb recognizedVerbs ->
    step C w st (verb :: operands) = (set_commandName verb st, []) /\
    jsonPath (fst (step C w st (verb :: operands))) = jsonPath st /\
    execAll C (snd (step C w st (verb :: operands))) w = w /\
    traceOf C (interpretFrom C w st ((verb :: operands) :: later)) =
      traceOf C (interpretFrom C w st later) /\
    worldOf C (interpretFrom C w st ((verb :: operands) :: later)) =
      worldOf C (interpretFrom C w st later) /\
    interpretFrom C w st ((verb :: operands) :: later) =
      interpretFrom C w (set_commandName verb st) later /\
    (forall (l1 : list (list string)) (next : list string) (l2 : list (list string)),
        later = (l1 ++ next :: l2)%list ->
        traceOf C (interpretFrom C w st ((verb :: operands) :: later)) =
        (traceOf C (interpretFrom C w (set_commandName verb st) l1) ++
         snd (step C (worldOf C (interpretFrom C w (set_commandName verb st) l1))
                     (varsOf C (interpretFrom C w (set_commandName verb st) l1)) next) ++
         traceOf C
           (interpretFrom C
              (execAll C
                 (snd (step C (worldOf C (interpretFrom C w (set_commandName verb st) l1))
                              (varsOf C (interpretFrom C w (set_commandName verb st) l1))
                              next))
                 (worldOf C (interpretFrom C w (set_commandName verb st) l1)))
              (fst (step C (worldOf C (interpretFrom C w (set_commandName verb st) l1))
                           (varsOf C (interpretFrom C w (set_commandName verb st) l1))
                           next))
              l2))%list) /\
    (forall token : string,
        In token (resolverCalls (jsonPath st) (verb :: operands)) <->
        jsonPath st <> "" /\ In token (verb :: operands) /\
        Occurs placeholderMarker token).
Proof.
  intros C w st verb operands later Hout.
  assert (Hstep : step C w st (verb :: operands) = (set_commandName verb st, [])).
  { rewrite step_cons. apply dispatch_unknown.
    now rewrite commandName_set_commandName. }
  assert (Hrun : interpretFrom C w st ((verb :: operands) :: later) =
                 interpretFrom C w (set_commandName verb st) later).
  { cbn [interpretFrom]. rewrite Hstep. cbn [execAll fold_left].
    now destruct (interpretFrom C w (set_commandName verb st) later) as [[s2 w2] e2]. }
  rewrite Hstep. cbn [fst snd].
  split; [reflexivity|].
  split; [apply jsonPath_set_commandName|].
  split; [reflexivity|].
  split; [exact (proj1 (interpretFrom_skip C w st (verb :: operands) verb later Hstep))|].
  split; [exact (proj2 (interpretFrom_skip C w st (verb :: operands) verb later Hstep))|].
  split; [exact Hrun|].
  split.
  - intros l1 next l2 ->. rewrite Hrun. apply interpretFrom_turn.
  - intros token. apply resolverCalls_spec.
Qed.

Lemma unrecognized_verb_is_noop_witness :
  traceOf journal
    (interpretFrom journal [] (set_jsonPath "doc.json" initialVars)
       [["frobnicate"; "{json_data(a)}"]; ["mkdir"; "X"]; ["unzip"; "a.zip"; "out"]])
  = [CreateDirectory "X"; UnzipFile "a.zip" "out"].
Proof.
  refine (proj1 (proj2 (proj2 (proj2 (proj2 (proj2 (proj2
            (unrecognized_verb_is_noop journal [] (set_jsonPath "doc.json" initialVars)
               "frobnicate" ["{json_data(a)}"]
               [["mkdir"; "X"]; ["unzip"; "a.zip"; "out"]] _)))))))
            [] ["mkdir"; "X"] [["unzip"; "a.zip"; "out"]] eq_refl).
  vm_compute. intuition discriminate.
Defined.

(** C10, as stated, fails: after json_data doc.json, the unrecognized
    command frobnicate {json_data(a)} has the resolver called on its token
    1, and the command built for dispatch holds the resolver's answer. *)
Lemma unrecognized_verb_resolver_counterexample :
  ~ In "frobnicate" recognizedVerbs /\
  resolverCalls
    (jsonPath (varsOf journal
                 (interpretAndExecuteCommand journal [] [["json_data"; "doc.json"]])))
    ["frobnicate"; "{json_data(a)}"]
  = ["{json_data(a)}"] /\
  resolveCommand journal []
    (jsonPath (varsOf journal
                 (interpretAndExecuteCommand journal [] [["json_data"; "doc.json"]])))
    ["frobnicate"; "{json_data(a)}"]
  = ["frobnicate"; "<doc.json:{json_data(a)}>"].
Proof.
  split; [vm_compute; intuition discriminate|].
  split; reflexivity.
Qed.

(** C2, as the code has it.  For the verbs delete, del, rename, move and mv,
    a command whose preprocessed source path (token 1) is dangerous makes
    no call at all, and the world is the one it started in.  The verbs
    mirror_delete and mirror_del are outside the guard: with a source path
    they call [mirrorDeleteFiles] on it, dangerous or not. *)
Theorem guard_covers_delete_and_move :
  (forall (C : Collaborators) (w : World C) (st : Vars) (verb : string)
          (operands : list string) (token : string),
      In verb guardedVerbs ->
      nth_error (resolveCommand C w (jsonPath st) (verb :: operands)) 1 = Some token ->
      isDangerousCombination (preprocessPath C token) = true ->
      snd (step C w st (verb :: operands)) = [] /\
      execAll C (snd (step C w st (verb :: operands))) w = w)
  /\
  (forall (C : Collaborators) (w : World C) (st : Vars) (verb : string)
          (operands : list string) (token : string),
      verb = "mirror_delete" \/ verb = "mirror_del" ->
      nth_error (resolveCommand C w (jsonPath st) (verb :: operands)) 1 = Some token ->
      exists dst : option string,
        snd (step C w st (verb :: operands)) =
        [MirrorDeleteFiles (preprocessPath C token) dst]).
Proof.
  split.
  - intros C w st verb operands token Hin Htok Hdanger.
    assert (Hnone : snd (step C w st (verb :: operands)) = []).
    { rewrite step_cons. apply dispatch_guarded.
      - now rewrite commandName_set_commandName.
      - now rewrite (nth_error_nth _ _ "" Htok). }
    rewrite Hnone. split; reflexivity.
  - intros C w st verb operands token Hverb Htok.
    eexists. rewrite step_cons, dispatch_mirror_delete.
    + rewrite (nth_error_nth _ _ "" Htok). reflexivity.
    + now rewrite commandName_set_commandName.
    + apply nth_error_length_lt in Htok. lia.
Qed.

Lemma guard_covers_delete_and_move_witness :
  snd (step journal [] initialVars ["delete"; "sdmc:/Nintendo/"]) = [] /\
  execAll journal (snd (step journal [] initialVars ["delete"; "sdmc:/Nintendo/"])) [] = [].
Proof.
  refine (proj1 guard_covers_delete_and_move journal [] initialVars "delete"
            ["sdmc:/Nintendo/"] "sdmc:/Nintendo/" _ _ _).
  - simpl. auto.
  - reflexivity.
  - vm_compute. reflexivity.
Defined.

(** C2, as stated, fails for mirror_delete: on the ultra-protected folder
    "sdmc:/Nintendo/" the guard answers true, and the command still calls
    [mirrorDeleteFiles], which changes the world. *)
Lemma mirror_delete_dangerous_counterexample :
  isDangerousCombination (preprocessPath journal "sdmc:/Nintendo/") = true /\
  snd (step journal [] initialVars ["mirror_delete"; "sdmc:/Nintendo/"])
    = [MirrorDeleteFiles "sdmc:/Nintendo/" None] /\
  execAll journal
    (snd (step journal [] initialVars ["mirror_delete"; "sdmc:/Nintendo/"])) []
    <> [].
Proof.
  split; [vm_compute; reflexivity|].
  split; [reflexivity|].
  vm_compute. discriminate.
Qed.

(** When every call returns ([interpretFrom]), a reboot or shutdown command
    calls [splExit], [fsdevUnmountAll] and [spsmShutdown] with its mode, in
    this order, writes no variable but [commandName], and the loop, which
    has no exit of its own, goes on with the later commands. *)
Lemma loop_goes_on_when_power_call_returns :
  forall (C : Collaborators) (w : World C) (st : Vars) (verb : string)
         (operands : list string) (later : list (list string)),
    verb = "reboot" \/ verb = "shutdown" ->
    step C w st (verb :: operands) =
      (set_commandName verb st,
       [SplExit; FsdevUnmountAll; SpsmShutdown (shutdownModeOf verb)]) /\
    traceOf C (interpretFrom C w st ((verb :: operands) :: later)) =
      ([SplExit; FsdevUnmountAll; SpsmShutdown (shutdownModeOf verb)] ++
       traceOf C (interpretFrom C
                    (execAll C [SplExit; FsdevUnmountAll;
                                SpsmShutdown (shutdownModeOf verb)] w)
                    st later))%list.
Proof.
  intros C w st verb operands later Hverb.
  pose proof (step_terminal C w st verb operands Hverb) as Hstep.
  split; [exact Hstep|].
  cbn [interpretFrom]. rewrite Hstep.
  pose proof (proj1 (interpretFrom_set_commandName C later verb
    (execAll C [SplExit; FsdevUnmountAll; SpsmShutdown (shutdownModeOf verb)] w) st))
    as Ht.
  destruct (interpretFrom C _ (set_commandName verb st) later) as [[s1 w1] e1].
  destruct (interpretFrom C _ st later) as [[s2 w2] e2].
  unfold traceOf in *. cbn [snd] in *. now rewrite Ht.
Qed.

(** C6.  In a process that ends inside [spsmShutdown] (the call does not
    come back), no command after the first reboot or shutdown command of a
    list is executed: the run is the run of the list cut after that
    command.  When the commands before it are no power commands and every
    other call returns, the run makes the calls of those commands, then
    [splExit], [fsdevUnmountAll] and [spsmShutdown] with the mode of the
    verb, in this order, and no call after; the loop does not reach the end
    of the list. *)
Theorem power_command_ends_the_run :
  (forall (C : Collaborators) (returns : Event -> bool) (w : World C) (st : Vars)
          (commands : list (list string)),
      (forall mode, returns (SpsmShutdown mode) = false) ->
      interpretWhileReturning C returns w st commands =
      interpretWhileReturning C returns w st (upToTerminal commands))
  /\
  (forall (C : Collaborators) (returns : Event -> bool) (w : World C) (st : Vars)
          (before : list (list string)) (verb : string) (operands : list string)
          (later : list (list string)),
      (forall mode, returns (SpsmShutdown mode) = false) ->
      (forall e, (forall mode, e <> SpsmShutdown mode) -> returns e = true) ->
      Forall (fun command => isTerminal command = false) before ->
      verb = "reboot" \/ verb = "shutdown" ->
      interpretWhileReturning C returns w st
        (before ++ (verb :: operands) :: later)%list =
      (set_commandName verb (varsOf C (interpretFrom C w st before)),
       execAll C [SplExit; FsdevUnmountAll; SpsmShutdown (shutdownModeOf verb)]
         (worldOf C (interpretFrom C w st before)),
       (traceOf C (interpretFrom C w st before) ++
        [SplExit; FsdevUnmountAll; SpsmShutdown (shutdownModeOf verb)])%list,
       false)).
Proof.
  split.
  - intros C returns w st commands Hpower.
    now apply interpretWhileReturning_upToTerminal.
  - intros C returns w st before verb operands later Hpower Hother Hbefore Hverb.
    now apply interpretWhileReturning_power.
Qed.

Lemma power_command_ends_the_run_witness :
  interpretWhileReturning journal returnsUnlessPowerOff [] initialVars
    ([["mkdir"; "X"]] ++ ["reboot"] :: [["mkdir"; "Y"]; ["shutdown"]])%list
  = (set_commandName "reboot" (set_sourcePath "X" (set_commandName "mkdir" initialVars)),
     [CreateDirectory "X"; SplExit; FsdevUnmountAll; SpsmShutdown 1],
     [CreateDirectory "X"; SplExit; FsdevUnmountAll; SpsmShutdown 1],
     false).
Proof.
  refine (proj2 power_command_ends_the_run journal returnsUnlessPowerOff []
            initialVars [["mkdir"; "X"]] "reboot" [] [["mkdir"; "Y"]; ["shutdown"]]
            _ _ _ _).
  - reflexivity.
  - intros e He. destruct e; try reflexivity. now elim (He mode).
  - repeat constructor.
  - now left.
Defined.

(** C8.  While the active document path is unset ([jsonPath] empty) the
    operation receives the tokens of the command as they are, placeholders
    included.  While it is set, the operation receives, for every token in
    which the marker "{json_data(" occurs, what the placeholder resolver
    returns for it, and every other token as it is.  In both cases the
    calls of the turn are those of the verb table on these tokens
    ([callsFor]: which token reaches which argument of which operation). *)
Theorem placeholders_resolved_before_dispatch :
  forall (C : Collaborators) (w : World C) (st : Vars) (token0 : string)
         (operands : list string),
    (jsonPath st = "" ->
     step C w st (token0 :: operands) =
       dispatch C (set_commandName token0 st) (token0 :: operands) /\
     snd (step C w st (token0 :: operands)) =
       callsFor C st token0 (token0 :: operands)) /\
    (jsonPath st <> "" ->
     exists command : list string,
       step C w st (token0 :: operands) =
       dispatch C (set_commandName token0 st) command /\
       Forall2 (ResolvedToken C w (jsonPath st)) (token0 :: operands) command /\
       snd (step C w st (token0 :: operands)) = callsFor C st token0 command).
Proof.
  intros C w st token0 operands. split.
  - intros Hunset. split.
    + rewrite step_cons, Hunset. reflexivity.
    + rewrite step_calls, Hunset. reflexivity.
  - intros Hset. exists (resolveCommand C w (jsonPath st) (token0 :: operands)).
    split; [apply step_cons|].
    split; [now apply resolveCommand_set | apply step_calls].
Qed.

Lemma placeholders_resolved_before_dispatch_witness :
  (step journal [] initialVars ["copy"; "{json_data(a.b)}"; "sdmc:/y"]
   = dispatch journal (set_commandName "copy" initialVars)
       ["copy"; "{json_data(a.b)}"; "sdmc:/y"]
   /\
   snd (step journal [] initialVars ["copy"; "{json_data(a.b)}"; "sdmc:/y"])
   = [CopyFileOrDirectory "{json_data(a.b)}" "sdmc:/y"])
  /\
  exists command : list string,
    step journal [] (set_jsonPath "doc.json" initialVars)
      ["copy"; "{json_data(a.b)}"; "sdmc:/y"]
    = dispatch journal (set_commandName "copy" (set_jsonPath "doc.json" initialVars)) command
    /\ Forall2 (ResolvedToken journal [] "doc.json")
         ["copy"; "{json_data(a.b)}"; "sdmc:/y"] command
    /\ snd (step journal [] (set_jsonPath "doc.json" initialVars)
              ["copy"; "{json_data(a.b)}"; "sdmc:/y"])
       = callsFor journal (set_jsonPath "doc.json" initialVars) "copy" command.
Proof.
  split.
  - refine (proj1 (placeholders_resolved_before_dispatch journal [] initialVars
                     "copy" ["{json_data(a.b)}"; "sdmc:/y"]) _).
    reflexivity.
  - refine (proj2 (placeholders_resolved_before_dispatch journal []
                     (set_jsonPath "doc.json" initialVars)
                     "copy" ["{json_data(a.b)}"; "sdmc:/y"]) _).
    discriminate.
Defined.

(** C1 fails on the code.  [desiredValue] is declared before the loop and
    only ever appended to, so the second set-ini-val command of a list
    passes the value of the first followed by its own: here "ab", where
    tokens 4.. of the second command are "b". *)
Theorem set_ini_val_appends_to_earlier_value :
  forall (C : Collaborators) (w : World C),
    traceOf C
      (interpretAndExecuteCommand C w
         [ ["set-ini-val"; "f"; "s"; "k"; "a"];
           ["set-ini-val"; "f"; "s"; "k"; "b"] ])
    = [ SetIniFileValue (c_str (preprocessPath C "f")) (c_str (removeQuotes C "s"))
          (c_str (removeQuotes C "k")) "a";
        SetIniFileValue (c_str (preprocessPath C "f")) (c_str (removeQuotes C "s"))
          (c_str (removeQuotes C "k")) "ab" ].
Proof.
  intros C w. reflexivity.
Qed.

(** C5.  A hex-by-string command with at least 4 tokens makes one call of
    [hexEditFindReplace]; its two operands are the encoded operands, each
    followed by as many null characters as it is shorter than the other,
    so they have the same length.  For an encoder that writes [k]
    characters for every byte of its operand, "AB" against "ABCD" gives
    the encoding of "AB" followed by the null characters of 2 bytes,
    [2 * k] of them, and the encoding of "ABCD" as it is. *)
Theorem hex_by_string_operands_padded :
  (forall (C : Collaborators) (w : World C) (st : Vars) (operands : list string),
      4 <= List.length ("hex-by-string" :: operands) ->
      exists (path toReplace replacement : string) (occ : option string),
        toReplace =
          asciiToHex C (removeQuotes C
            (nth 2 (resolveCommand C w (jsonPath st) ("hex-by-string" :: operands)) "")) /\
        replacement =
          asciiToHex C (removeQuotes C
            (nth 3 (resolveCommand C w (jsonPath st) ("hex-by-string" :: operands)) "")) /\
        snd (step C w st ("hex-by-string" :: operands)) =
          [HexEditFindReplace path
             (toReplace ++ nulls (String.length replacement - String.length toReplace))
             (replacement ++ nulls (String.length toReplace - String.length replacement))
             occ] /\
        String.length
          (toReplace ++ nulls (String.length replacement - String.length toReplace)) =
        String.length
          (replacement ++ nulls (String.length toReplace - String.length replacement)))
  /\
  (forall (C : Collaborators) (w : World C) (st : Vars) (k : nat),
      (forall s : string, String.length (asciiToHex C s) = k * String.length s) ->
      removeQuotes C "AB" = "AB" ->
      removeQuotes C "ABCD" = "ABCD" ->
      snd (step C w st ["hex-by-string"; "f"; "AB"; "ABCD"]) =
        [HexEditFindReplace (preprocessPath C "f")
           (asciiToHex C "AB" ++ nulls (2 * k)) (asciiToHex C "ABCD") None] /\
      String.length (asciiToHex C "AB" ++ nulls (2 * k)) =
        String.length (asciiToHex C "ABCD")).
Proof.
  split.
  - intros C w st operands Hlen.
    do 4 eexists. split; [reflexivity|]. split; [reflexivity|]. split.
    + rewrite step_cons, hex_by_string_call.
      * rewrite fixMismatchedSizes_pads. cbn [fst snd]. reflexivity.
      * now rewrite commandName_set_commandName.
      * now rewrite resolveCommand_length.
    + rewrite !length_append, !length_nulls. lia.
  - intros C w st k Hwidth Hab Habcd.
    assert (Hsame : resolveCommand C w (jsonPath st) ["hex-by-string"; "f"; "AB"; "ABCD"]
                    = ["hex-by-string"; "f"; "AB"; "ABCD"]).
    { unfold resolveCommand. now destruct (negb (empty (jsonPath st))). }
    split.
    + rewrite step_cons, hex_by_string_call.
      * rewrite Hsame. cbn [nth List.length Nat.leb].
        rewrite Hab, Habcd, fixMismatchedSizes_pads. cbn [fst snd].
        rewrite !Hwidth. cbn [String.length].
        replace (k * 4 - k * 2) with (2 * k) by lia.
        replace (k * 2 - k * 4) with 0 by lia.
        cbn [nulls]. now rewrite append_empty_r.
      * now rewrite commandName_set_commandName.
      * rewrite resolveCommand_length. cbn. lia.
    + rewrite length_append, length_nulls, !Hwidth. cbn [String.length]. lia.
Qed.

Lemma hex_by_string_operands_padded_witness :
  snd (step journal [] initialVars ["hex-by-string"; "f"; "AB"; "ABCD"]) =
    [HexEditFindReplace "f" ("4142" ++ nulls (2 * 2)) "41424344" None] /\
  String.length ("4142" ++ nulls (2 * 2)) = String.length "41424344".
Proof.
  refine (proj2 hex_by_string_operands_padded journal [] initialVars 2 _ _ _).
  - intros s. induction s as [|c s IH]; [reflexivity|].
    cbn [asciiToHex journal asciiToHexModel String.length] in *. rewrite IH. lia.
  - reflexivity.
  - reflexivity.
Defined.

(* ------------------------------------------------------------------ *)
(** ** More on the path guard *)

Section GuardFacts.

Lemma Occurs_refl (s : string) : Occurs s s.
Proof. exists "", "". cbn. now rewrite append_empty_r. Qed.

Lemma Occurs_trans (a b c : string) : Occurs a b -> Occurs b c -> Occurs a c.
Proof.
  intros (x & y & ->) (u & v & ->).
  exists (u ++ x), (y ++ v). now rewrite !append_assoc.
Qed.

Lemma Occurs_append_l (t a b : string) : Occurs t a -> Occurs t (a ++ b).
Proof.
  intros (x & y & ->). exists x, (y ++ b). now rewrite !append_assoc.
Qed.

Lemma Occurs_append_r (t a b : string) : Occurs t b -> Occurs t (a ++ b).
Proof.
  intros (x & y & ->). exists (a ++ x), y. now rewrite !append_assoc.
Qed.

Lemma substring_0_append (m : nat) (s : string) :
  exists rest, s = substring 0 m s ++ rest.
Proof.
  revert m. induction s as [|c s IH]; intros m.
  - exists "". now destruct m.
  - destruct m as [|m]; cbn.
    + now exists (String c s).
    + destruct (IH m) as [rest E]. exists rest. now rewrite <- E.
Qed.

Lemma Occurs_substring (n m : nat) (s : string) : Occurs (substring n m s) s.
Proof.
  revert s. induction n as [|n IH]; intros s.
  - destruct (substring_0_append m s) as [rest E].
    exists "", rest. exact E.
  - destruct s as [|c s]; cbn.
    + apply Occurs_refl.
    + apply (Occurs_append_r _ (String c "") s), IH.
Qed.

(** [find(t) == 0] is "t is a prefix". *)
Lemma pos_is_find_prefix (s t : string) : pos_is (find s t) 0 = prefix t s.
Proof.
  unfold find. destruct s as [|c s]; cbn [index].
  - now destruct t.
  - destruct (prefix t (String c s)); [reflexivity|].
    now destruct (index 0 t s).
Qed.

(** What the splitting loop returns occurs in what it was given. *)
Lemma splitLoop_occurs (relativePath : string) :
  forall (pathSegments : list string) (pathSegment segment : string),
    In segment (fst (splitLoop relativePath pathSegments pathSegment)) \/
    segment = snd (splitLoop relativePath pathSegments pathSegment) ->
    In segment pathSegments \/ Occurs segment (pathSegment ++ relativePath).
Proof.
  induction relativePath as [|c rest IH]; intros segs seg s H.
  - cbn in H. destruct H as [H| ->]; [now left | right].
    rewrite append_empty_r. apply Occurs_refl.
  - cbn [splitLoop] in H. destruct (Ascii.eqb c "/").
    + destruct seg as [|d seg]; cbn [empty negb] in H.
      * destruct (IH _ _ _ H) as [H'|H']; [now left | right].
        cbn in *. now apply (Occurs_append_r _ (String c "") rest).
      * destruct (IH _ _ _ H) as [H'|H'].
        -- apply in_app_or in H'. destruct H' as [H'|[<-|[]]]; [now left | right].
           apply Occurs_append_l, Occurs_refl.
        -- right. cbn [append] in H'.
           apply Occurs_append_r. now apply (Occurs_append_r _ (String c "") rest).
    + destruct (IH _ _ _ H) as [H'|H']; [now left | right].
      now rewrite append_assoc in H'.
Qed.

Lemma splitSegments_occurs (relativePath segment : string) :
  In segment (splitSegments relativePath) -> Occurs segment relativePath.
Proof.
  unfold splitSegments. intros H.
  pose proof (splitLoop_occurs relativePath [] "" segment) as L.
  destruct (splitLoop relativePath [] "") as [segs seg]. cbn [fst snd] in L.
  destruct seg as [|d seg]; cbn [empty negb] in H.
  - destruct (L (or_introl H)) as [[]|H']. exact H'.
  - apply in_app_or in H. destruct H as [H|[<-|[]]].
    + destruct (L (or_introl H)) as [[]|H']. exact H'.
    + destruct (L (or_intror eq_refl)) as [[]|H']. exact H'.
Qed.

Lemma existsb_false_iff {A : Type} (f : A -> bool) (l : list A) :
  existsb f l = false <-> forall x, In x l -> f x = false.
Proof.
  induction l as [|a l IH]; cbn.
  - split; [intros _ x [] | reflexivity].
  - rewrite orb_false_iff, IH. split.
    + intros [Ha Hl] x [<-|Hx]; auto.
    + intros H. split; [apply H; now left | intros x Hx; apply H; now right].
Qed.

Lemma existsb_orb {A : Type} (f g : A -> bool) (l : list A) :
  existsb (fun x => f x || g x) l = existsb f l || existsb g l.
Proof.
  induction l as [|a l IH]; cbn; [reflexivity|].
  rewrite IH. destruct (f a), (g a), (existsb f l), (existsb g l); reflexivity.
Qed.

Lemma existsb_pointwise {A : Type} (f g : A -> bool) (l : list A) :
  (forall x, f x = g x) -> existsb f l = existsb g l.
Proof. intros E. induction l as [|a l IH]; cbn; [reflexivity | now rewrite E, IH]. Qed.

(** A dangerous pattern inside a segment of a tail of the path is a
    dangerous pattern inside the path. *)
Lemma segment_pattern_in_path (patternPath : string) (n : nat) :
  existsb (fun pattern => found (find patternPath pattern)) dangerousPatterns = false ->
  existsb (fun pathSegment =>
             existsb (fun dangerousPattern => found (find pathSegment dangerousPattern))
                     dangerousPatterns)
          (splitSegments (substr_from patternPath n)) = false.
Proof.
  intros K. apply existsb_false_iff. intros seg Hseg.
  apply existsb_false_iff. intros pat Hpat.
  destruct (found (find seg pat)) eqn:E; [|reflexivity].
  rewrite existsb_false_iff in K. rewrite <- (K pat Hpat).
  symmetry. apply found_find_iff.
  apply found_find_iff in E.
  apply Occurs_trans with seg; [exact E|].
  apply Occurs_trans with (substr_from patternPath n).
  - now apply splitSegments_occurs.
  - apply Occurs_substring.
Qed.

Lemma segment_equal_in_path (patternPath : string) (n : nat) :
  existsb (fun pattern => found (find patternPath pattern)) dangerousPatterns = false ->
  existsb (fun pathSegment =>
             existsb (fun dangerousPattern => String.eqb pathSegment dangerousPattern)
                     dangerousPatterns)
          (splitSegments (substr_from patternPath n)) = false.
Proof.
  intros K. apply existsb_false_iff. intros seg Hseg.
  apply existsb_false_iff. intros pat Hpat.
  destruct (String.eqb_spec seg pat) as [->|]; [|reflexivity].
  rewrite existsb_false_iff in K. rewrite <- (K pat Hpat).
  symmetry. apply found_find_iff.
  apply Occurs_trans with (substr_from patternPath n).
  - now apply splitSegments_occurs.
  - apply Occurs_substring.
Qed.

Lemma prefix_longer_false (a b p : string) :
  prefix a p = false -> prefix (a ++ b) p = false.
Proof.
  revert p. induction a as [|c a IH]; intros p H.
  - now destruct p.
  - destruct p as [|d p]; [reflexivity|]. cbn in *.
    destruct (ascii_dec c d); [now apply IH | reflexivity].
Qed.

Lemma eqb_prefixed_false (a b p : string) :
  prefix a p = false -> String.eqb p (a ++ b) = false.
Proof.
  intros H. apply String.eqb_neq. intros ->.
  rewrite prefix_app in H. discriminate.
Qed.

Lemma substring_0_length_append (a b : string) :
  substring 0 (String.length a) (a ++ b) = a.
Proof.
  induction a as [|c a IH]; cbn.
  - now destruct b.
  - now rewrite IH.
Qed.

(** The first ":/" of [a ++ ":/" ++ b] is the one written, when [a] has
    none. *)
Lemma find_first_volume_separator (a b : string) :
  ~ Occurs ":/" a -> find (a ++ ":/" ++ b) ":/" = Some (String.length a).
Proof.
  unfold find. induction a as [|c a IH]; intros Hno.
  - exact (find_prefix ":/" b).
  - change (String c a ++ ":/" ++ b) with (String c (a ++ ":/" ++ b)).
    cbn [index].
    destruct (prefix ":/" (String c (a ++ ":/" ++ b))) eqn:E.
    + exfalso. cbn [prefix] in E.
      destruct (ascii_dec ":" c) as [<-|]; [|discriminate].
      destruct a as [|d a]; cbn [append prefix] in E.
      * destruct (ascii_dec "/" ":"); discriminate.
      * destruct (ascii_dec "/" d) as [<-|]; [|discriminate].
        apply Hno. now exists "", a.
    + rewrite IH; [reflexivity|].
      intros H. apply Hno. now apply (Occurs_append_r _ (String c "") a).
Qed.

Lemma Occurs_char_append (x : ascii) (s t : string) :
  Occurs (String x "") (s ++ t) ->
  Occurs (String x "") s \/ Occurs (String x "") t.
Proof.
  induction s as [|d s IH]; intros (a & b & E).
  - right. now exists a, b.
  - destruct a as [|d' a]; cbn in E; injection E as -> E.
    + left. now exists "", s.
    + destruct (IH (ex_intro _ a (ex_intro _ b E))) as [H|H]; [left | now right].
      now apply (Occurs_append_r _ (String d' "") s).
Qed.

Lemma Occurs_char_single (x c : ascii) : Occurs (String x "") (String c "") -> c = x.
Proof.
  intros (a & b & E). destruct a as [|d a]; cbn in E.
  - now injection E.
  - injection E as _ E. now destruct a.
Qed.

Lemma not_Occurs_empty (x : ascii) : ~ Occurs (String x "") "".
Proof. intros (a & b & E). now destruct a. Qed.

(** The splitting loop keeps its accumulators proper: the segments stored
    are non-empty and without "/", the segment in progress is without "/". *)
Lemma splitLoop_proper (relativePath : string) :
  forall (pathSegments : list string) (pathSegment : string),
    Forall ProperSegment pathSegments ->
    ~ Occurs "/" pathSegment ->
    Forall ProperSegment (fst (splitLoop relativePath pathSegments pathSegment)) /\
    ~ Occurs "/" (snd (splitLoop relativePath pathSegments pathSegment)).
Proof.
  induction relativePath as [|c rest IH]; intros segs seg Hsegs Hseg.
  - now split.
  - cbn [splitLoop]. destruct (Ascii.eqb_spec c "/") as [->|Hc].
    + destruct seg as [|d seg]; cbn [empty negb].
      * now apply IH.
      * apply IH; [|apply not_Occurs_empty].
        apply Forall_app. split; [assumption|].
        constructor; [|constructor]. now split.
    + apply IH; [assumption|].
      intros H. apply Occurs_char_append in H. destruct H as [H|H]; [now apply Hseg|].
      apply Occurs_char_single in H. now apply Hc.
Qed.

Lemma splitLoop_slash_free (s rest : string) :
  forall (pathSegments : list string) (pathSegment : string),
    ~ Occurs "/" s ->
    splitLoop (s ++ rest) pathSegments pathSegment =
    splitLoop rest pathSegments (pathSegment ++ s).
Proof.
  induction s as [|c s IH]; intros segs seg Hs.
  - cbn. now rewrite append_empty_r.
  - cbn [append splitLoop]. destruct (Ascii.eqb_spec c "/") as [->|Hc].
    + elim Hs. now exists "", s.
    + rewrite IH.
      * now rewrite append_assoc.
      * intros H. apply Hs. now apply (Occurs_append_r _ (String c "") s).
Qed.

Lemma splitLoop_concat (segment : string) (segments : list string) :
  forall pathSegments : list string,
    Forall ProperSegment (segment :: segments) ->
    splitLoop (String.concat "/" (segment :: segments)) pathSegments "" =
    ((pathSegments ++ removelast (segment :: segments))%list,
     last (segment :: segments) "").
Proof.
  revert segment. induction segments as [|next segments IH]; intros x segs HP.
  - cbn [String.concat removelast last].
    inversion HP as [|? ? [_ Hx] _]; subst.
    rewrite <- (append_empty_r x) at 1. rewrite splitLoop_slash_free by assumption.
    cbn. now rewrite app_nil_r.
  - inversion HP as [|? ? [Hne Hx] HP']; subst.
    change (String.concat "/" (x :: next :: segments))
      with (x ++ String "/" (String.concat "/" (next :: segments))).
    rewrite splitLoop_slash_free by assumption.
    cbn [append splitLoop]. cbn [Ascii.eqb Bool.eqb].
    destruct x as [|d x]; [now elim Hne|]. cbn [empty negb].
    rewrite IH by assumption.
    change (removelast (String d x :: next :: segments))
      with (String d x :: removelast (next :: segments)).
    change (last (String d x :: next :: segments) "")
      with (last (next :: segments) "").
    now rewrite <- app_assoc.
Qed.


Lemma isDangerousCombination_summary (patternPath : string) :
  isDangerousCombination patternPath = isDangerousSummary patternPath.
Proof.
  revert patternPath.
  intros p. unfold isDangerousCombination, isDangerousSummary.
  rewrite (existsb_pointwise _ (fun folder => prefix folder p) ultraProtectedFolders)
    by (intros; apply pos_is_find_prefix).
  destruct (existsb (fun pattern => found (find p pattern)) dangerousPatterns) eqn:K.
  - rewrite !orb_true_r.
    repeat match goal with |- (if ?c then true else _) = true => destruct c; [reflexivity|] end.
    reflexivity.
  - rewrite orb_false_r.
    assert (B : existsb (protectedFolderCheck p) protectedFolders =
                existsb (fun folder => String.eqb p folder) protectedFolders
                || existsb (fun folder =>
                              existsb (fun pattern => String.eqb p (folder ++ pattern))
                                      dangerousCombinationPatterns)
                           protectedFolders).
    { rewrite <- existsb_orb. apply existsb_pointwise. intros folder.
      unfold protectedFolderCheck.
      rewrite (segment_pattern_in_path p (String.length folder) K).
      destruct (String.eqb p folder); [reflexivity|].
      now destruct (pos_is (find p folder) 0). }
    rewrite B. clear B.
    unfold sdmcSegmentCheck. rewrite (segment_equal_in_path p 6 K).
    destruct (existsb (fun folder => prefix folder p) ultraProtectedFolders),
             (existsb (fun folder => String.eqb p folder) protectedFolders),
             (existsb (fun folder =>
                         existsb (fun pattern => String.eqb p (folder ++ pattern))
                                 dangerousCombinationPatterns) protectedFolders),
             (pos_is (find p "sdmc:/") 0),
             (rootWildcardCheck p); reflexivity.
Qed.

End GuardFacts.

(** X1.  [isDangerousCombination] answers what its deciding tests answer:
    the path starts with an ultra-protected folder, or is a protected
    folder, or a protected folder followed by "*" or "*/", or has a "*"
    up to its first ":/", or contains ".." or "~".  The two tests on the
    segments (lines 219-250 and 261-291) never change the answer. *)
Theorem guard_summary :
  forall patternPath : string,
    isDangerousCombination patternPath = isDangerousSummary patternPath.
Proof. exact isDangerousCombination_summary. Qed.

(** X2.  A path whose volume name, the text before its first ":/", contains
    a "*" is dangerous, whatever follows. *)
Theorem wildcard_in_volume_name_dangerous :
  forall volume rest : string,
    Occurs "*" volume ->
    ~ Occurs ":/" volume ->
    isDangerousCombination (volume ++ ":/" ++ rest) = true.
Proof.
  intros a b Hstar Hno.
  rewrite isDangerousCombination_summary. unfold isDangerousSummary.
  assert (R : rootWildcardCheck (a ++ ":/" ++ b) = true).
  { unfold rootWildcardCheck. rewrite find_first_volume_separator by assumption.
    unfold substr.
    replace (a ++ ":/" ++ b) with ((a ++ ":/") ++ b) by now rewrite append_assoc.
    replace (String.length a + 2) with (String.length (a ++ ":/"))
      by (rewrite length_append; reflexivity).
    rewrite substring_0_length_append.
    apply (find_occurs "*"). now apply Occurs_append_l. }
  rewrite R. now rewrite orb_true_r.
Qed.

Lemma wildcard_in_volume_name_dangerous_witness :
  isDangerousCombination ("us*" ++ ":/" ++ "saves/slot1") = true.
Proof.
  apply wildcard_in_volume_name_dangerous.
  - now exists "us", "".
  - intros H. apply (find_occurs ":/" "us*") in H. vm_compute in H. discriminate.
Defined.

(** X3.  Inside sdmc:/atmosphere/, sdmc:/bootloader/, sdmc:/switch/ and
    sdmc:/config/ the guard refuses exactly: the folder itself, the folder
    followed by "*" or "*/", and every relative path in which ".." or "~"
    occurs.  Every other path below these folders can be deleted or moved. *)
Theorem guard_inside_operable_folder :
  forall folder relativePath : string,
    In folder operableFolders ->
    isDangerousCombination (folder ++ relativePath) =
    empty relativePath
    || String.eqb relativePath "*" || String.eqb relativePath "*/"
    || found (find relativePath "..") || found (find relativePath "~").
Proof.
  intros folder rel Hin. rewrite isDangerousCombination_summary.
  unfold isDangerousSummary, rootWildcardCheck, find, find_char, substr.
  cbn in Hin.
  destruct Hin as [<-|[<-|[<-|[<-|[]]]]];
    cbn;
    destruct (index 0 ".." rel), (index 0 "~" rel); cbn [found];
    rewrite ?orb_false_r, ?orb_true_r; try reflexivity;
    destruct rel; reflexivity.
Qed.

Lemma guard_inside_operable_folder_witness :
  isDangerousCombination ("sdmc:/config/" ++ "ultrahand/theme.ini") = false.
Proof.
  rewrite (guard_inside_operable_folder "sdmc:/config/" "ultrahand/theme.ini").
  - reflexivity.
  - simpl. auto.
Defined.

(** X4.  Outside the sdmc: volume only two tests remain: a path that does
    not start with "sdmc:/" is dangerous exactly when it has a "*" up to
    its first ":/" or contains ".." or "~". *)
Theorem guard_outside_sdmc :
  forall patternPath : string,
    prefix "sdmc:/" patternPath = false ->
    isDangerousCombination patternPath =
    rootWildcardCheck patternPath
    || found (find patternPath "..") || found (find patternPath "~").
Proof.
  intros p H. rewrite isDangerousCombination_summary. unfold isDangerousSummary.
  cbn [existsb ultraProtectedFolders protectedFolders dangerousCombinationPatterns
       dangerousPatterns append].
  repeat match goal with
         | |- context [String.eqb p ?s] =>
             let r := eval cbv in (substring 6 (String.length s) s) in
             rewrite (eqb_prefixed_false "sdmc:/" r p H : String.eqb p s = false)
         | |- context [prefix ?s p] =>
             let r := eval cbv in (substring 6 (String.length s) s) in
             rewrite (prefix_longer_false "sdmc:/" r p H : prefix s p = false)
         end.
  cbn [orb]. now rewrite orb_false_r, orb_assoc.
Qed.

Lemma guard_outside_sdmc_witness :
  isDangerousCombination "usb:/games/*.nsp" = false.
Proof.
  rewrite (guard_outside_sdmc "usb:/games/*.nsp"); reflexivity.
Defined.

(** X5.  Every segment the splitting loop produces is non-empty and
    contains no "/": empty segments, from a leading, trailing or doubled
    "/", are dropped. *)
Theorem splitSegments_proper :
  forall relativePath : string,
    Forall ProperSegment (splitSegments relativePath).
Proof.
  intros rel. unfold splitSegments.
  destruct (splitLoop_proper rel [] "" (Forall_nil _) (not_Occurs_empty "/"))
    as [Hsegs Hseg].
  destruct (splitLoop rel [] "") as [segs seg]. cbn [fst snd] in *.
  destruct seg as [|d seg]; cbn [empty negb]; [assumption|].
  apply Forall_app. split; [assumption|].
  constructor; [|constructor]. now split.
Qed.

(** X6.  Splitting undoes joining: non-empty segments without "/", joined
    with "/", split into the same segments. *)
Theorem splitSegments_concat :
  forall segments : list string,
    Forall ProperSegment segments ->
    splitSegments (String.concat "/" segments) = segments.
Proof.
  intros segments HP. unfold splitSegments.
  destruct segments as [|x segments]; [reflexivity|].
  rewrite splitLoop_concat by assumption. cbn [app].
  assert (Hlast : ProperSegment (last (x :: segments) "")).
  { assert (Hin : In (last (x :: segments) "") (x :: segments)).
    { clear HP. revert x. induction segments as [|y l IH]; intros x.
      - now left.
      - right. apply IH. }
    rewrite Forall_forall in HP. now apply HP. }
  destruct (last (x :: segments) "") as [|d l] eqn:E; [now destruct Hlast|].
  cbn [empty negb]. rewrite <- E. symmetry. apply app_removelast_last. discriminate.
Qed.

Lemma splitSegments_concat_witness :
  splitSegments (String.concat "/" ["switch"; ".overlays"; "ovlmenu.ovl"]) =
  ["switch"; ".overlays"; "ovlmenu.ovl"].
Proof.
  apply splitSegments_concat.
  repeat constructor; try discriminate;
    intros H; apply (find_occurs "/") in H; vm_compute in H; discriminate.
Defined.

(* ------------------------------------------------------------------ *)
(** ** Whole runs: composition, frames and what a trace never holds *)

Section RunFacts.

Variable C : Collaborators.

Lemma execAll_app (a b : list Event) (w : World C) :
  execAll C (a ++ b)%list w = execAll C b (execAll C a w).
Proof. unfold execAll. apply fold_left_app. Qed.

Lemma interpretFrom_app_eq (a b : list (list string)) :
  forall (w : World C) (st : Vars),
    interpretFrom C w st (a ++ b)%list =
    let '(st1, w1, events1) := interpretFrom C w st a in
    let '(st2, w2, events2) := interpretFrom C w1 st1 b in
    (st2, w2, (events1 ++ events2)%list).
Proof.
  induction a as [|command a IH]; intros w st.
  - cbn. now destruct (interpretFrom C w st b) as [[s2 w2] e2].
  - cbn [app interpretFrom].
    destruct (step C w st command) as [st1 events].
    rewrite IH.
    destruct (interpretFrom C (execAll C events w) st1 a) as [[s1 w1] e1].
    destruct (interpretFrom C w1 s1 b) as [[s2 w2] e2].
    now rewrite app_assoc.
Qed.

Lemma interpretFrom_world_eq (commands : list (list string)) :
  forall (w : World C) (st : Vars),
    worldOf C (interpretFrom C w st commands) =
    execAll C (traceOf C (interpretFrom C w st commands)) w.
Proof.
  induction commands as [|command rest IH]; intros w st.
  - reflexivity.
  - cbn [interpretFrom].
    destruct (step C w st command) as [st1 events].
    specialize (IH (execAll C events w) st1).
    destruct (interpretFrom C (execAll C events w) st1 rest) as [[s2 w2] e2].
    unfold worldOf, traceOf in *. cbn [fst snd] in *.
    now rewrite execAll_app.
Qed.

(** A property of every call of every turn is a property of the trace. *)
Lemma interpretFrom_Forall (P : Event -> Prop) :
  (forall w st command, Forall P (snd (step C w st command))) ->
  forall commands w st, Forall P (traceOf C (interpretFrom C w st commands)).
Proof.
  intros Hstep. induction commands as [|command rest IH]; intros w st.
  - constructor.
  - cbn [interpretFrom]. specialize (Hstep w st command).
    destruct (step C w st command) as [st1 events].
    specialize (IH (execAll C events w) st1).
    destruct (interpretFrom C (execAll C events w) st1 rest) as [[s2 w2] e2].
    unfold traceOf in *. cbn [snd] in *. apply Forall_app. now split.
Qed.

(** A variable that no turn of a list writes keeps its value. *)
Lemma interpretFrom_frame (get : Vars -> string) (keeps : list string -> Prop) :
  (forall w st command, keeps command -> get (fst (step C w st command)) = get st) ->
  forall commands w st,
    Forall keeps commands ->
    get (varsOf C (interpretFrom C w st commands)) = get st.
Proof.
  intros Hstep. induction commands as [|command rest IH]; intros w st Hall.
  - reflexivity.
  - inversion Hall as [|? ? Hk Hrest]; subst.
    cbn [interpretFrom]. specialize (Hstep w st command Hk).
    destruct (step C w st command) as [st1 events].
    specialize (IH (execAll C events w) st1 Hrest).
    destruct (interpretFrom C (execAll C events w) st1 rest) as [[s2 w2] e2].
    unfold varsOf in *. cbn [fst] in *. congruence.
Qed.

Lemma dispatch_guardedCallSafe (st : Vars) (command : list string) :
  Forall guardedCallSafe (snd (dispatch C st command)).
Proof.
  open_dispatch st name. dispatch_branches name;
    cbn [snd]; repeat constructor; cbn [guardedCallSafe];
    try exact I;
    match goal with
    | H : negb (isDangerousCombination ?p) = true |- isDangerousCombination ?p = false =>
        now apply negb_true_iff
    end.
Qed.

Lemma dispatch_wildcardCallMatches (st : Vars) (command : list string) :
  Forall wildcardCallMatches (snd (dispatch C st command)).
Proof.
  open_dispatch st name. dispatch_branches name;
    cbn [snd]; repeat constructor; cbn [wildcardCallMatches];
    try exact I;
    match goal with
    | H : found (find_char ?p "*") = true |- Occurs "*" ?p =>
        now apply (found_find_iff p "*")
    | H : found (find_char ?p "*") = false |- ~ Occurs "*" ?p =>
        let O := fresh in
        intros O; apply (found_find_iff p "*") in O;
        unfold find_char in H; unfold find in O; congruence
    end.
Qed.

Lemma dispatch_jsonPath_frame (st : Vars) (command : list string) :
  commandName st <> "json_data" ->
  jsonPath (fst (dispatch C st command)) = jsonPath st.
Proof.
  intros Hname. open_dispatch st name. cbn [commandName] in Hname.
  destruct (String.eqb_spec name "json_data") as [?|_]; [contradiction|].
  dispatch_branches name; reflexivity.
Qed.

Lemma dispatch_desiredValue_frame (st : Vars) (command : list string) :
  commandName st <> "set-ini-val" ->
  commandName st <> "set-ini-value" ->
  desiredValue (fst (dispatch C st command)) = desiredValue st.
Proof.
  intros H1 H2. open_dispatch st name. cbn [commandName] in H1, H2.
  dispatch_branches name; try contradiction; reflexivity.
Qed.

Lemma step_frame (get : Vars -> string) (w : World C) (st : Vars)
    (command : list string) :
  (forall v st', get (set_commandName v st') = get st') ->
  (forall st' command', commandName st' = verbOf command ->
                        get (fst (dispatch C st' command')) = get st') ->
  get (fst (step C w st command)) = get st.
Proof.
  intros Hset Hdispatch. destruct command as [|token0 rest]; [reflexivity|].
  rewrite step_cons, Hdispatch; [apply Hset|].
  apply commandName_set_commandName.
Qed.

Lemma step_Forall (P : Event -> Prop) :
  (forall st command, Forall P (snd (dispatch C st command))) ->
  forall w st command, Forall P (snd (step C w st command)).
Proof.
  intros H w st [|token0 rest]; [constructor|]. rewrite step_cons. apply H.
Qed.

Lemma dispatch_json_data (st : Vars) (command : list string) :
  commandName st = "json_data" ->
  2 <= List.length command ->
  dispatch C st command = (set_jsonPath (preprocessPath C (nth 1 command "")) st, []).
Proof.
  intros e Hlen. unfold dispatch. cbv zeta. rewrite e.
  apply Nat.leb_le in Hlen. cbn [String.eqb Ascii.eqb Bool.eqb]. now rewrite Hlen.
Qed.

Lemma jsonPath_set_jsonPath (v : string) (st : Vars) : jsonPath (set_jsonPath v st) = v.
Proof. now destruct st. Qed.

Lemma desiredValue_set_commandName (v : string) (st : Vars) :
  desiredValue (set_commandName v st) = desiredValue st.
Proof. now destruct st. Qed.

Lemma desiredNewKey_set_commandName (v : string) (st : Vars) :
  desiredNewKey (set_commandName v st) = desiredNewKey st.
Proof. now destruct st. Qed.

(** What a set-ini-key command passes as the new key, and what it leaves in
    [desiredNewKey]. *)
Lemma set_ini_key_call (st : Vars) (command : list string) :
  commandName st = "set-ini-key" ->
  5 <= List.length command ->
  snd (dispatch C st command) =
    [SetIniFileKey
       (c_str (preprocessPath C (nth 1 command "")))
       (c_str (removeQuotes C (nth 2 command "")))
       (c_str (removeQuotes C (nth 3 command "")))
       (c_str (desiredNewKey st ++ String.concat " " (skipn 4 command)))] /\
  desiredNewKey (fst (dispatch C st command)) =
    desiredNewKey st ++ String.concat " " (skipn 4 command).
Proof.
  intros e Hlen. unfold dispatch. cbv zeta.
  apply Nat.leb_le in Hlen as Hleb.
  rewrite e; cbn [String.eqb Ascii.eqb Bool.eqb orb];
    rewrite Hleb; rewrite appendTokens_concat by lia;
    destruct st; split; reflexivity.
Qed.

Lemma set_ini_val_leaves (st : Vars) (command : list string) :
  commandName st = "set-ini-val" \/ commandName st = "set-ini-value" ->
  5 <= List.length command ->
  desiredValue (fst (dispatch C st command)) =
    desiredValue st ++ String.concat " " (skipn 4 command).
Proof.
  intros Hname Hlen. unfold dispatch. cbv zeta.
  apply Nat.leb_le in Hlen as Hleb.
  destruct Hname as [e|e]; rewrite e; cbn [String.eqb Ascii.eqb Bool.eqb orb];
    rewrite Hleb; rewrite appendTokens_concat by lia;
    destruct st; reflexivity.
Qed.

Lemma interpretFrom_drop_empty (commands : list (list string)) :
  forall (w : World C) (st : Vars),
    interpretFrom C w st commands =
    interpretFrom C w st
      (filter (fun command => negb (Nat.eqb (List.length command) 0)) commands).
Proof.
  induction commands as [|command rest IH]; intros w st; [reflexivity|].
  destruct command as [|token0 tokens].
  - cbn [filter List.length Nat.eqb negb]. cbn [interpretFrom step execAll fold_left].
    rewrite <- IH.
    now destruct (interpretFrom C w st rest) as [[s2 w2] e2].
  - cbn [filter List.length Nat.eqb negb]. cbn [interpretFrom].
    destruct (step C w st (token0 :: tokens)) as [st1 events].
    now rewrite <- IH.
Qed.

Lemma marker_not_in_verb (verb : string) :
  Occurs placeholderMarker verb -> ~ In verb recognizedVerbs.
Proof.
  intros Hocc Hin. apply find_occurs in Hocc.
  vm_compute in Hin.
  repeat (destruct Hin as [<-|Hin]; [vm_compute in Hocc; discriminate|]).
  exact Hin.
Qed.

End RunFacts.

(** X7.  Commands run in list order, and a run can be cut anywhere: running
    [first ++ second] is running [first], then [second] from the variables
    and the world [first] leaves; the trace is the two traces in order. *)
Theorem interpret_concatenation :
  forall (C : Collaborators) (w : World C) (st : Vars)
         (first second : list (list string)),
    interpretFrom C w st (first ++ second)%list =
    let '(st1, w1, events1) := interpretFrom C w st first in
    let '(st2, w2, events2) := interpretFrom C w1 st1 second in
    (st2, w2, (events1 ++ events2)%list).
Proof. intros C w st first second. apply interpretFrom_app_eq. Qed.

(** The world a run ends in is the world it started in with the calls of
    its trace applied in order. *)
Theorem final_world_is_trace_applied :
  forall (C : Collaborators) (w : World C) (st : Vars)
         (commands : list (list string)),
    worldOf C (interpretFrom C w st commands) =
    execAll C (traceOf C (interpretFrom C w st commands)) w.
Proof. intros C w st commands. apply interpretFrom_world_eq. Qed.

(** X8.  The active document path is set by json_data and by nothing else:
    after a json_data command with a path, whatever commands follow that
    are not json_data commands, [jsonPath] is the preprocessed (resolved)
    token 1 of that command. *)
Theorem active_document_persists :
  forall (C : Collaborators) (w : World C) (st : Vars) (token : string)
         (operands : list string) (later : list (list string)),
    Forall (fun command => verbOf command <> "json_data") later ->
    jsonPath (varsOf C (interpretFrom C w st
                          (("json_data" :: token :: operands) :: later))) =
    preprocessPath C
      (nth 1 (resolveCommand C w (jsonPath st) ("json_data" :: token :: operands)) "").
Proof.
  intros C w st token operands later Hlater.
  cbn [interpretFrom]. rewrite step_cons, dispatch_json_data.
  - cbn [execAll fold_left].
    pose proof (interpretFrom_frame C jsonPath
                  (fun command => verbOf command <> "json_data")) as F.
    specialize (F (fun w0 st0 command Hk =>
      step_frame C jsonPath w0 st0 command
        (fun v st' => jsonPath_set_commandName v st')
        (fun st' command' Hn =>
           dispatch_jsonPath_frame C st' command'
             (eq_ind_r (fun x => x <> "json_data") Hk Hn)))).
    specialize (F later w
      (set_jsonPath
         (preprocessPath C
            (nth 1 (resolveCommand C w (jsonPath st) ("json_data" :: token :: operands)) ""))
         (set_commandName "json_data" st)) Hlater).
    destruct (interpretFrom C w _ later) as [[s2 w2] e2].
    unfold varsOf in *. cbn [fst] in *. rewrite F. apply jsonPath_set_jsonPath.
  - apply commandName_set_commandName.
  - rewrite resolveCommand_length. cbn. lia.
Qed.

Lemma active_document_persists_witness :
  jsonPath (varsOf journal (interpretFrom journal [] initialVars
     [["json_data"; "doc.json"]; ["mkdir"; "X"]; ["reboot"]; []; ["unknown"]]))
  = "doc.json".
Proof.
  refine (active_document_persists journal [] initialVars "doc.json" []
            [["mkdir"; "X"]; ["reboot"]; []; ["unknown"]] _).
  repeat constructor; discriminate.
Defined.

(** X9.  The first set-ini-val (or set-ini-value) command of a run passes
    exactly its own tokens 4.. joined with single spaces (as a C string):
    no earlier command of another verb writes [desiredValue]. *)
Theorem first_set_ini_val_passes_own_tokens :
  forall (C : Collaborators) (w : World C) (earlier : list (list string))
         (verb : string) (operands : list string),
    Forall (fun command => verbOf command <> "set-ini-val" /\
                           verbOf command <> "set-ini-value") earlier ->
    verb = "set-ini-val" \/ verb = "set-ini-value" ->
    5 <= List.length (verb :: operands) ->
    let r := interpretAndExecuteCommand C w earlier in
    let command :=
      resolveCommand C (worldOf C r) (jsonPath (varsOf C r)) (verb :: operands) in
    snd (step C (worldOf C r) (varsOf C r) (verb :: operands)) =
    [SetIniFileValue
       (c_str (preprocessPath C (nth 1 command "")))
       (c_str (removeQuotes C (nth 2 command "")))
       (c_str (removeQuotes C (nth 3 command "")))
       (c_str (String.concat " " (skipn 4 command)))].
Proof.
  intros C w earlier verb operands Hearlier Hverb Hlen r command.
  assert (Hempty : desiredValue (varsOf C r) = "").
  { unfold r, interpretAndExecuteCommand.
    rewrite (interpretFrom_frame C desiredValue
               (fun command => verbOf command <> "set-ini-val" /\
                               verbOf command <> "set-ini-value")).
    - reflexivity.
    - intros w0 st0 command0 [H1 H2].
      apply step_frame.
      + intros v st'. apply desiredValue_set_commandName.
      + intros st' command' Hn. apply dispatch_desiredValue_frame; congruence.
    - exact Hearlier. }
  rewrite step_cons, set_ini_val_value.
  - rewrite desiredValue_set_commandName, Hempty. reflexivity.
  - now rewrite commandName_set_commandName.
  - now rewrite resolveCommand_length.
Qed.

Lemma first_set_ini_val_passes_own_tokens_witness :
  snd (step journal
         (worldOf journal (interpretAndExecuteCommand journal [] [["mkdir"; "X"]]))
         (varsOf journal (interpretAndExecuteCommand journal [] [["mkdir"; "X"]]))
         ["set-ini-val"; "f.ini"; "sec"; "key"; "two"; "words"])
  = [SetIniFileValue "f.ini" "sec" "key" "two words"].
Proof.
  refine (first_set_ini_val_passes_own_tokens journal [] [["mkdir"; "X"]]
            "set-ini-val" ["f.ini"; "sec"; "key"; "two"; "words"] _ _ _).
  - repeat constructor; discriminate.
  - now left.
  - simpl. lia.
Defined.

(** X10.  set-ini-val and set-ini-key append to a variable that outlives
    the command.  A set-ini-key command with at least 5 tokens passes, as
    the new key, what [desiredNewKey] held before followed by its tokens
    4.. joined with single spaces, and leaves that text in [desiredNewKey];
    a set-ini-val command leaves [desiredValue] extended in the same way. *)
Theorem ini_commands_append_to_their_variable :
  forall (C : Collaborators) (w : World C) (st : Vars) (operands : list string),
    (5 <= List.length ("set-ini-key" :: operands) ->
     let command := resolveCommand C w (jsonPath st) ("set-ini-key" :: operands) in
     snd (step C w st ("set-ini-key" :: operands)) =
       [SetIniFileKey
          (c_str (preprocessPath C (nth 1 command "")))
          (c_str (removeQuotes C (nth 2 command "")))
          (c_str (removeQuotes C (nth 3 command "")))
          (c_str (desiredNewKey st ++ String.concat " " (skipn 4 command)))] /\
     desiredNewKey (fst (step C w st ("set-ini-key" :: operands))) =
       desiredNewKey st ++ String.concat " " (skipn 4 command)) /\
    (5 <= List.length ("set-ini-val" :: operands) ->
     let command := resolveCommand C w (jsonPath st) ("set-ini-val" :: operands) in
     desiredValue (fst (step C w st ("set-ini-val" :: operands))) =
       desiredValue st ++ String.concat " " (skipn 4 command)).
Proof.
  intros C w st operands. split.
  - intros Hlen command. rewrite step_cons.
    destruct (set_ini_key_call C (set_commandName "set-ini-key" st) command) as [Hc Hv].
    + apply commandName_set_commandName.
    + unfold command. now rewrite resolveCommand_length.
    + rewrite desiredNewKey_set_commandName in Hc, Hv. now split.
  - intros Hlen command. rewrite step_cons, set_ini_val_leaves.
    + now rewrite desiredValue_set_commandName.
    + left. apply commandName_set_commandName.
    + now rewrite resolveCommand_length.
Qed.

Lemma ini_commands_append_to_their_variable_witness :
  snd (step journal [] (set_desiredNewKey "old" initialVars)
         ["set-ini-key"; "f.ini"; "sec"; "key"; "new"; "name"])
  = [SetIniFileKey "f.ini" "sec" "key" "oldnew name"].
Proof.
  refine (proj1 (proj1 (ini_commands_append_to_their_variable journal []
                          (set_desiredNewKey "old" initialVars)
                          ["f.ini"; "sec"; "key"; "new"; "name"]) _)).
  simpl. lia.
Defined.

(** X11.  No run ever calls a delete or move primitive on a source the
    guard calls dangerous: every [deleteFileOrDirectory],
    [deleteFileOrDirectoryByPattern], [moveFileOrDirectory] and
    [moveFilesOrDirectoriesByPattern] call of a trace has a source on which
    [isDangerousCombination] answers false. *)
Theorem deletes_and_moves_never_get_dangerous_source :
  forall (C : Collaborators) (w : World C) (commands : list (list string)),
    Forall guardedCallSafe (traceOf C (interpretAndExecuteCommand C w commands)).
Proof.
  intros C w commands. apply interpretFrom_Forall.
  apply step_Forall. apply dispatch_guardedCallSafe.
Qed.

(** X12.  In every run, the pattern primitives of copy, delete and move are
    called with a source in which "*" occurs, and the single-path
    primitives with a source in which it does not. *)
Theorem pattern_primitive_iff_wildcard :
  forall (C : Collaborators) (w : World C) (commands : list (list string)),
    Forall wildcardCallMatches (traceOf C (interpretAndExecuteCommand C w commands)).
Proof.
  intros C w commands. apply interpretFrom_Forall.
  apply step_Forall. apply dispatch_wildcardCallMatches.
Qed.

(** X13.  Empty commands are invisible: a run and the run of the list with
    its empty commands removed end with the same variables, the same world
    and the same trace. *)
Theorem empty_commands_are_invisible :
  forall (C : Collaborators) (w : World C) (st : Vars)
         (commands : list (list string)),
    interpretFrom C w st commands =
    interpretFrom C w st
      (filter (fun command => negb (Nat.eqb (List.length command) 0)) commands).
Proof. intros C w st commands. apply interpretFrom_drop_empty. Qed.

(** X14.  A verb cannot come from a placeholder: the verb compared is
    token 0 as written, so a command whose token 0 contains the marker
    "{json_data(" makes no call of an operation and writes nothing but
    [commandName], whatever the resolver answers.  With an active document
    the resolver is still called on that token; its answer is never
    compared with the verbs. *)
Theorem verb_with_placeholder_is_noop :
  forall (C : Collaborators) (w : World C) (st : Vars) (verb : string)
         (operands : list string),
    Occurs placeholderMarker verb ->
    step C w st (verb :: operands) = (set_commandName verb st, []) /\
    (jsonPath st <> "" ->
     In verb (resolverCalls (jsonPath st) (verb :: operands)) /\
     nth 0 (resolveCommand C w (jsonPath st) (verb :: operands)) "" =
       replaceJsonSourcePlaceholder C w verb (jsonPath st)).
Proof.
  intros C w st verb operands Hocc. split.
  - rewrite step_cons. apply dispatch_unknown.
    rewrite commandName_set_commandName. now apply marker_not_in_verb.
  - intros Hset. split.
    + apply resolverCalls_spec. split; [assumption|]. split; [now left | assumption].
    + unfold resolveCommand. destruct (jsonPath st) as [|c path]; [now elim Hset|].
      cbn [empty negb map nth].
      apply (find_occurs placeholderMarker) in Hocc. unfold placeholderMarker in Hocc.
      now rewrite Hocc.
Qed.

Lemma verb_with_placeholder_is_noop_witness :
  step (journalResolvingTo "reboot") [] (set_jsonPath "doc.json" initialVars)
    ["{json_data(verb)}"; "sdmc:/x"]
  = (set_commandName "{json_data(verb)}" (set_jsonPath "doc.json" initialVars), [])
  /\
  In "{json_data(verb)}"
     (resolverCalls (jsonPath (set_jsonPath "doc.json" initialVars))
        ["{json_data(verb)}"; "sdmc:/x"])
  /\
  nth 0 (resolveCommand (journalResolvingTo "reboot") []
           (jsonPath (set_jsonPath "doc.json" initialVars))
           ["{json_data(verb)}"; "sdmc:/x"]) ""
  = "reboot".
Proof.
  assert (Hocc : Occurs placeholderMarker "{json_data(verb)}")
    by now exists "", "verb)}".
  split.
  - exact (proj1 (verb_with_placeholder_is_noop (journalResolvingTo "reboot") []
                    (set_jsonPath "doc.json" initialVars) "{json_data(verb)}"
                    ["sdmc:/x"] Hocc)).
  - refine (proj2 (verb_with_placeholder_is_noop (journalResolvingTo "reboot") []
                     (set_jsonPath "doc.json" initialVars) "{json_data(verb)}"
                     ["sdmc:/x"] Hocc) _).
    discriminate.
Defined.

(* ------------------------------------------------------------------ *)
(** ** Top-level names, and the key combo copy *)

Section TopLevelFacts.

Lemma eqb_slash_free (name s : string) :
  ~ Occurs "/" name -> found (find s "/") = true -> String.eqb name s = false.
Proof.
  intros Hno Hs. apply String.eqb_neq. intros ->.
  apply Hno. now apply found_find_iff.
Qed.

Lemma prefix_slash_free (name s : string) :
  ~ Occurs "/" name -> found (find s "/") = true -> prefix s name = false.
Proof.
  intros Hno Hs. destruct (prefix s name) eqn:E; [|reflexivity].
  elim Hno. apply prefix_correct in E.
  apply Occurs_trans with s; [now apply found_find_iff|].
  rewrite <- E. apply Occurs_substring.
Qed.

Lemma rootWildcardCheck_sdmc (rest : string) :
  rootWildcardCheck ("sdmc:/" ++ rest) = false.
Proof.
  unfold rootWildcardCheck, find, find_char, substr.
  cbn [append index prefix]. cbn. now destruct rest.
Qed.

End TopLevelFacts.

(** X15.  Directly below "sdmc:/" the guard goes by the exact text: for a
    name without "/", the path "sdmc:/" followed by the name is dangerous
    exactly when the name is empty, is "*", or contains ".." or "~".  So
    the protected folders written without their final "/" (as in
    "sdmc:/Nintendo" or "sdmc:/atmosphere") are not dangerous. *)
Theorem guard_on_top_level_name :
  forall name : string,
    ~ Occurs "/" name ->
    isDangerousCombination ("sdmc:/" ++ name) =
    empty name || String.eqb name "*"
    || found (find name "..") || found (find name "~").
Proof.
  intros name Hno. rewrite isDangerousCombination_summary.
  unfold isDangerousSummary. rewrite rootWildcardCheck_sdmc.
  unfold find. cbn.
  repeat match goal with
         | |- context [String.eqb name ?s] =>
             rewrite (eqb_slash_free name s Hno eq_refl)
         | |- context [prefix ?s name] =>
             rewrite (prefix_slash_free name s Hno eq_refl)
         end.
  destruct (index 0 ".." name), (index 0 "~" name); cbn [found];
    rewrite ?orb_false_r, ?orb_true_r; try reflexivity;
    destruct name; reflexivity.
Qed.

Lemma guard_on_top_level_name_witness :
  isDangerousCombination ("sdmc:/" ++ "Nintendo") = false.
Proof.
  rewrite (guard_on_top_level_name "Nintendo").
  - reflexivity.
  - intros H. apply (find_occurs "/") in H. vm_compute in H. discriminate.
Defined.

(** X16.  [copyTeslaKeyComboToUltrahand] makes one of two sequences of
    calls.  When Tesla's settings file exists and its section tesla has a
    non-empty key_combo, and Ultrahand's settings file exists with a
    section ultrahand that has no key_combo, it writes that combo under
    ultrahand/key_combo of Ultrahand's file and then calls
    [parseOverlaySettings]; in every other case it only calls
    [parseOverlaySettings]. *)
Theorem key_combo_copied_exactly_when_copyable :
  forall F : IniFiles,
    (exists value : string,
        Copyable F value /\
        copyTeslaKeyComboToUltrahand F =
        [Ini (SetIniFileValue "sdmc:/config/ultrahand/config.ini" "ultrahand"
                "key_combo" value);
         ParseOverlaySettings])
    \/
    ((forall value : string, ~ Copyable F value) /\
     copyTeslaKeyComboToUltrahand F = [ParseOverlaySettings]).
Proof.
  intros F. unfold copyTeslaKeyComboToUltrahand. cbv zeta.
  destruct (isFileOrDirectory F teslaSettingsConfigIniPath) eqn:Et;
    [|right; split; [intros v (H & _); congruence | reflexivity]].
  destruct (getParsedDataFromIniFile F teslaSettingsConfigIniPath "tesla")
    as [teslaSection|] eqn:Es;
    [|right; split; [intros v (_ & (sec & H & _) & _); congruence | reflexivity]].
  destruct (teslaSection "key_combo") as [value|] eqn:Ek;
    [|right; split; [intros v (_ & (sec & H & H') & _); congruence | reflexivity]].
  destruct value as [|c value]; cbn [empty negb];
    [right; split; [intros v (_ & (sec & H & H') & Hne & _); congruence | reflexivity]|].
  destruct (isFileOrDirectory F settingsConfigIniPath) eqn:Eu;
    [|right; split; [intros v (_ & _ & _ & H & _); congruence | reflexivity]].
  destruct (getParsedDataFromIniFile F settingsConfigIniPath "ultrahand")
    as [ultrahandSection|] eqn:Eus;
    [|right; split; [intros v (_ & _ & _ & _ & (sec & H & _)); congruence | reflexivity]].
  destruct (ultrahandSection "key_combo") as [old|] eqn:Euk;
    [right; split; [intros v (_ & _ & _ & _ & (sec & H & H')); congruence | reflexivity]|].
  left. exists (String c value). split; [|reflexivity].
  unfold Copyable. split; [assumption|]. split; [now exists teslaSection|].
  split; [discriminate|]. split; [assumption|]. now exists ultrahandSection.
Qed.

(** X17.  [copyTeslaKeyComboToUltrahand] never overwrites: when Ultrahand's
    section ultrahand already has a key_combo, no file is written. *)
Theorem key_combo_never_overwritten :
  forall (F : IniFiles) (ultrahandSection : IniSection) (current : string),
    getParsedDataFromIniFile F settingsConfigIniPath "ultrahand" = Some ultrahandSection ->
    ultrahandSection "key_combo" = Some current ->
    copyTeslaKeyComboToUltrahand F = [ParseOverlaySettings].
Proof.
  intros F section current Hs Hk. unfold copyTeslaKeyComboToUltrahand. cbv zeta.
  rewrite Hs, Hk.
  destruct (negb _); [|reflexivity].
  destruct (isFileOrDirectory F settingsConfigIniPath); reflexivity.
Qed.

Lemma key_combo_never_overwritten_witness :
  copyTeslaKeyComboToUltrahand
    (exampleCard (fun key => if String.eqb key "key_combo" then Some "ZL+ZR" else None))
  = [ParseOverlaySettings].
Proof.
  refine (key_combo_never_overwritten _ _ "ZL+ZR" _ _); reflexivity.
Defined.
